(** * TicketVault: an ownership-indexed registry of encrypted tickets

    A shallow embedding of the [TicketVault] Solidity contract and the
    verification of its specification.  Contract storage is an explicit
    state record, contract functions are computations in a small
    state-and-revert monad, and the FHE coprocessor library the contract
    calls ([FHE.fromExternal], [FHE.asEbool], [FHE.allow], [FHE.allowThis])
    is an interface the whole development is parametric in. *)

From stdpp Require Import gmap strings list.

Local Open Scope N_scope.

(** ** Solidity value types *)

(** [uint256], [address] (160 bits) and the 32-byte FHE handles are
    unsigned integers; [address(0)] is [0]. *)
Abbreviation uint256 := N (only parsing).
Abbreviation address := N (only parsing).
Abbreviation bytes32 := N (only parsing).
Abbreviation euint32 := N (only parsing).
Abbreviation ebool := N (only parsing).
Abbreviation externalEuint32 := N (only parsing).
Abbreviation bytes := (list N) (only parsing).

Definition MAX_UINT256 : N := 2 ^ 256 - 1.

(** ** The FHE library interface

    The contract imports [FHE] from [@fhevm/solidity]; its code is not part
    of the repository.  The interface below lists the five entry points the
    contract uses, acting on an abstract coprocessor state.  [cleartext] is
    the plaintext a boolean handle stands for (what [userDecryptEbool]
    returns in the tests); the three laws say that a handle made by
    [asEbool b] stands for [b] and that granting access never changes what a
    handle stands for.  [fromExternal] fails when the input proof does not
    verify; [asEbool], [allowThis] and [allow] are taken to succeed, as they
    do on handles the contract itself holds access to (it calls [allowThis]
    on every handle it stores). *)
Class FHELib := {
  fhe_state : Type;
  FHE_fromExternal :
    externalEuint32 -> bytes -> address -> fhe_state -> option (euint32 * fhe_state);
  FHE_asEbool : bool -> fhe_state -> ebool * fhe_state;
  FHE_allowThis : bytes32 -> fhe_state -> fhe_state;
  FHE_allow : bytes32 -> address -> fhe_state -> fhe_state;
  cleartext : fhe_state -> ebool -> option bool;
  cleartext_asEbool b st :
    cleartext (FHE_asEbool b st).2 (FHE_asEbool b st).1 = Some b;
  cleartext_allowThis h st h' :
    cleartext (FHE_allowThis h st) h' = cleartext st h';
  cleartext_allow h a st h' :
    cleartext (FHE_allow h a st) h' = cleartext st h';
}.

(** ** Storage layout *)

Record Ticket := mkTicket {
  eventName : string;
  venue : string;
  date : string;
  encryptedSeatNumber : euint32;
  isLocked : ebool;
  owner : address;
  exists_ : bool;
}.

(** The value a [mapping(uint256 => Ticket)] returns at a key never written. *)
Definition zeroTicket : Ticket :=
  {| eventName := EmptyString; venue := EmptyString; date := EmptyString;
     encryptedSeatNumber := 0; isLocked := 0; owner := 0; exists_ := false |}.

Inductive Event :=
| TicketCreated (ticketId : uint256) (owner : address) (eventName : string)
| TicketLockStatusChanged (ticketId : uint256) (owner : address)
| TicketTransferred (ticketId : uint256) (from to : address).

(** Reasons for which a call reverts: the four [require] messages of the
    contract, the revert of [FHE.fromExternal] on a proof that does not
    verify, and the panic of checked arithmetic. *)
Inductive Error :=
| TicketDoesNotExist      (* "Ticket does not exist" *)
| NotTicketOwner          (* "Not ticket owner" *)
| InvalidNewOwner         (* "Invalid new owner" *)
| CannotTransferToSelf    (* "Cannot transfer to self" *)
| InputProofRejected      (* revert inside FHE.fromExternal *)
| ArithmeticPanic.        (* Panic(0x11) *)

(** The error taxonomy of the specification. *)
Inductive ErrorKind := InvalidInput | NotFound | NotAuthorized | InvalidProof | Panic.

Definition kind (e : Error) : ErrorKind :=
  match e with
  | TicketDoesNotExist => NotFound
  | NotTicketOwner => NotAuthorized
  | InvalidNewOwner | CannotTransferToSelf => InvalidInput
  | InputProofRejected => InvalidProof
  | ArithmeticPanic => Panic
  end.

Section TicketVault.
Context `{fhe : FHELib}.

Record State := mkState {
  _tickets : gmap N Ticket;
  _ticketCount : uint256;
  _ownerTickets : gmap N (list N);
  coprocessor : fhe_state;
  events : list Event;
}.

(** Storage right after deployment, over a coprocessor state [st]. *)
Definition deployed (st : fhe_state) : State :=
  {| _tickets := ∅; _ticketCount := 0; _ownerTickets := ∅;
     coprocessor := st; events := [] |}.

(** ** The execution monad *)

Inductive Result (A : Type) :=
| Ok (a : A) (s : State)
| Revert (e : Error).
Global Arguments Ok {A} a s.
Global Arguments Revert {A} e.

Definition M (A : Type) : Type := State -> Result A.

Definition ret {A} (a : A) : M A := fun s => Ok a s.

Definition bind {A B} (m : M A) (k : A -> M B) : M B :=
  fun s => match m s with
           | Ok a s' => k a s'
           | Revert e => Revert e
           end.

Local Notation "x <- m ;; k" := (bind m (fun x => k))
  (at level 100, m at next level, k at level 200, right associativity).
Local Notation "m ;;; k" := (bind m (fun _ => k))
  (at level 100, k at level 200, right associativity).

Definition require (cond : bool) (e : Error) : M unit :=
  fun s => if cond then Ok tt s else Revert e.

Definition gets {A} (f : State -> A) : M A := fun s => Ok (f s) s.

Definition modify (f : State -> State) : M unit := fun s => Ok tt (f s).

(** A call is a transaction: when it reverts, storage is left as it was. *)
Inductive Outcome (A : Type) :=
| Success (a : A)
| Failure (e : Error).
Global Arguments Success {A} a.
Global Arguments Failure {A} e.

Definition call {A} (m : M A) (s : State) : Outcome A * State :=
  match m s with
  | Ok a s' => (Success a, s')
  | Revert e => (Failure e, s)
  end.

(** ** Storage access *)

(** Reading a mapping at a key never written yields the zero value. *)
Definition ticketAt (s : State) (ticketId : uint256) : Ticket :=
  default zeroTicket (_tickets s !! ticketId).

Definition ownerTicketsAt (s : State) (a : address) : list N :=
  default [] (_ownerTickets s !! a).

Definition set_tickets (f : gmap N Ticket -> gmap N Ticket) (s : State) : State :=
  {| _tickets := f (_tickets s); _ticketCount := _ticketCount s;
     _ownerTickets := _ownerTickets s; coprocessor := coprocessor s;
     events := events s |}.

Definition set_ticketCount (n : uint256) (s : State) : State :=
  {| _tickets := _tickets s; _ticketCount := n;
     _ownerTickets := _ownerTickets s; coprocessor := coprocessor s;
     events := events s |}.

Definition set_ownerTickets (f : gmap N (list N) -> gmap N (list N)) (s : State) : State :=
  {| _tickets := _tickets s; _ticketCount := _ticketCount s;
     _ownerTickets := f (_ownerTickets s); coprocessor := coprocessor s;
     events := events s |}.

Definition set_coprocessor (st : fhe_state) (s : State) : State :=
  {| _tickets := _tickets s; _ticketCount := _ticketCount s;
     _ownerTickets := _ownerTickets s; coprocessor := st;
     events := events s |}.

Definition set_events (f : list Event -> list Event) (s : State) : State :=
  {| _tickets := _tickets s; _ticketCount := _ticketCount s;
     _ownerTickets := _ownerTickets s; coprocessor := coprocessor s;
     events := f (events s) |}.

Definition with_isLocked (h : ebool) (t : Ticket) : Ticket :=
  {| eventName := eventName t; venue := venue t; date := date t;
     encryptedSeatNumber := encryptedSeatNumber t; isLocked := h;
     owner := owner t; exists_ := exists_ t |}.

Definition with_owner (a : address) (t : Ticket) : Ticket :=
  {| eventName := eventName t; venue := venue t; date := date t;
     encryptedSeatNumber := encryptedSeatNumber t; isLocked := isLocked t;
     owner := a; exists_ := exists_ t |}.

(** [_tickets[ticketId]] as an rvalue. *)
Definition readTicket (ticketId : uint256) : M Ticket :=
  gets (fun s => ticketAt s ticketId).

(** [_tickets[ticketId] = t] and [_tickets[ticketId].field = v]. *)
Definition writeTicket (ticketId : uint256) (t : Ticket) : M unit :=
  modify (set_tickets <[ticketId := t]>).

Definition updateTicket (ticketId : uint256) (f : Ticket -> Ticket) : M unit :=
  modify (fun s => set_tickets <[ticketId := f (ticketAt s ticketId)]> s).

(** [_ownerTickets[a].push(ticketId)]. *)
Definition pushOwnerTicket (a : address) (ticketId : uint256) : M unit :=
  modify (fun s => set_ownerTickets <[a := ownerTicketsAt s a ++ [ticketId]]> s).

(** [_ticketCount++] under checked arithmetic. *)
Definition incrementTicketCount : M unit :=
  fun s => if _ticketCount s <? MAX_UINT256
           then Ok tt (set_ticketCount (_ticketCount s + 1) s)
           else Revert ArithmeticPanic.

Definition emit (e : Event) : M unit := modify (set_events (fun l => l ++ [e])).

(** ** Calls into the FHE library *)

Definition fromExternal (encryptedSeat : externalEuint32) (seatProof : bytes)
    (sender : address) : M euint32 :=
  fun s => match FHE_fromExternal encryptedSeat seatProof sender (coprocessor s) with
           | Some (h, st) => Ok h (set_coprocessor st s)
           | None => Revert InputProofRejected
           end.

Definition asEbool (b : bool) : M ebool :=
  fun s => Ok (FHE_asEbool b (coprocessor s)).1
              (set_coprocessor (FHE_asEbool b (coprocessor s)).2 s).

Definition allowThis (h : bytes32) : M unit :=
  modify (fun s => set_coprocessor (FHE_allowThis h (coprocessor s)) s).

Definition allow (h : bytes32) (a : address) : M unit :=
  modify (fun s => set_coprocessor (FHE_allow h a (coprocessor s)) s).

(** ** The contract functions

    Every function takes [msg.sender] as its first argument. *)

Definition getTicketCount : M uint256 := gets _ticketCount.

Definition getOwnerTickets (owner : address) : M (list N) :=
  gets (fun s => ownerTicketsAt s owner).

Definition getTicketMetadata (ticketId : uint256)
  : M (string * string * string * address * bool) :=
  ticket <- readTicket ticketId ;;
  ret (eventName ticket, venue ticket, date ticket, owner ticket, exists_ ticket).

Definition getEncryptedSeatNumber (sender : address) (ticketId : uint256) : M euint32 :=
  t <- readTicket ticketId ;;
  require (exists_ t) TicketDoesNotExist ;;;
  t <- readTicket ticketId ;;
  require (owner t =? sender) NotTicketOwner ;;;
  t <- readTicket ticketId ;;
  ret (encryptedSeatNumber t).

Definition getEncryptedLockStatus (sender : address) (ticketId : uint256) : M ebool :=
  t <- readTicket ticketId ;;
  require (exists_ t) TicketDoesNotExist ;;;
  t <- readTicket ticketId ;;
  require (owner t =? sender) NotTicketOwner ;;;
  t <- readTicket ticketId ;;
  ret (isLocked t).

Definition createTicket (sender : address) (eventName venue date : string)
    (encryptedSeat : externalEuint32) (seatProof : bytes) : M uint256 :=
  ticketId <- gets _ticketCount ;;
  incrementTicketCount ;;;
  seatNumber <- fromExternal encryptedSeat seatProof sender ;;
  locked <- asEbool true ;;
  writeTicket ticketId
    {| eventName := eventName; venue := venue; date := date;
       encryptedSeatNumber := seatNumber; isLocked := locked;
       owner := sender; exists_ := true |} ;;;
  pushOwnerTicket sender ticketId ;;;
  allowThis seatNumber ;;;
  allow seatNumber sender ;;;
  allowThis locked ;;;
  allow locked sender ;;;
  emit (TicketCreated ticketId sender eventName) ;;;
  ret ticketId.

Definition unlockTicket (sender : address) (ticketId : uint256) : M unit :=
  t <- readTicket ticketId ;;
  require (exists_ t) TicketDoesNotExist ;;;
  t <- readTicket ticketId ;;
  require (owner t =? sender) NotTicketOwner ;;;
  unlocked <- asEbool false ;;
  updateTicket ticketId (with_isLocked unlocked) ;;;
  allowThis unlocked ;;;
  allow unlocked sender ;;;
  emit (TicketLockStatusChanged ticketId sender).

Definition lockTicket (sender : address) (ticketId : uint256) : M unit :=
  t <- readTicket ticketId ;;
  require (exists_ t) TicketDoesNotExist ;;;
  t <- readTicket ticketId ;;
  require (owner t =? sender) NotTicketOwner ;;;
  locked <- asEbool true ;;
  updateTicket ticketId (with_isLocked locked) ;;;
  allowThis locked ;;;
  allow locked sender ;;;
  emit (TicketLockStatusChanged ticketId sender).

(** The removal loop of [transferTicket]:
    [for (i = 0; i < a.length; i++) if (a[i] == ticketId)
       { a[i] = a[a.length - 1]; a.pop(); break; }].
    [fuel] bounds the iterations left; the loop is entered with
    [fuel = a.length], which the index can never outrun. *)
Fixpoint removeLoop (fuel i : nat) (ticketId : uint256) (a : list N) : list N :=
  match fuel with
  | O => a
  | S fuel' =>
      match a !! i with
      | None => a
      | Some x =>
          if x =? ticketId
          then take (length a - 1)%nat
                 (<[i := default 0 (a !! (length a - 1)%nat)]> a)
          else removeLoop fuel' (S i) ticketId a
      end
  end.

Definition removeOwnerTicket (a : address) (ticketId : uint256) : M unit :=
  modify (fun s =>
    set_ownerTickets
      <[a := removeLoop (length (ownerTicketsAt s a)) 0 ticketId (ownerTicketsAt s a)]> s).

Definition transferTicket (sender : address) (ticketId : uint256) (newOwner : address)
  : M unit :=
  t <- readTicket ticketId ;;
  require (exists_ t) TicketDoesNotExist ;;;
  t <- readTicket ticketId ;;
  require (owner t =? sender) NotTicketOwner ;;;
  require (negb (newOwner =? 0)) InvalidNewOwner ;;;
  require (negb (newOwner =? sender)) CannotTransferToSelf ;;;
  t <- readTicket ticketId ;;
  let previousOwner := owner t in
  updateTicket ticketId (with_owner newOwner) ;;;
  removeOwnerTicket previousOwner ticketId ;;;
  pushOwnerTicket newOwner ticketId ;;;
  t <- readTicket ticketId ;;
  allow (encryptedSeatNumber t) newOwner ;;;
  t <- readTicket ticketId ;;
  allow (isLocked t) newOwner ;;;
  emit (TicketTransferred ticketId previousOwner newOwner).

(** ** Transactions and reachable states *)

Inductive Call :=
| CreateTicket (eventName venue date : string)
    (encryptedSeat : externalEuint32) (seatProof : bytes)
| UnlockTicket (ticketId : uint256)
| LockTicket (ticketId : uint256)
| TransferTicket (ticketId : uint256) (newOwner : address)
| GetTicketCount
| GetOwnerTickets (owner : address)
| GetTicketMetadata (ticketId : uint256)
| GetEncryptedSeatNumber (ticketId : uint256)
| GetEncryptedLockStatus (ticketId : uint256).

Inductive Value :=
| VUnit
| VUint (n : uint256)
| VIds (l : list N)
| VMetadata (m : string * string * string * address * bool)
| VHandle (h : bytes32).

Definition dispatch (sender : address) (c : Call) : M Value :=
  match c with
  | CreateTicket e v d enc proof =>
      ticketId <- createTicket sender e v d enc proof ;; ret (VUint ticketId)
  | UnlockTicket ticketId => unlockTicket sender ticketId ;;; ret VUnit
  | LockTicket ticketId => lockTicket sender ticketId ;;; ret VUnit
  | TransferTicket ticketId newOwner =>
      transferTicket sender ticketId newOwner ;;; ret VUnit
  | GetTicketCount => n <- getTicketCount ;; ret (VUint n)
  | GetOwnerTickets owner => l <- getOwnerTickets owner ;; ret (VIds l)
  | GetTicketMetadata ticketId => m <- getTicketMetadata ticketId ;; ret (VMetadata m)
  | GetEncryptedSeatNumber ticketId =>
      h <- getEncryptedSeatNumber sender ticketId ;; ret (VHandle h)
  | GetEncryptedLockStatus ticketId =>
      h <- getEncryptedLockStatus sender ticketId ;; ret (VHandle h)
  end.

Definition transact (sender : address) (c : Call) (s : State) : Outcome Value * State :=
  call (dispatch sender c) s.

(** States the contract can be in: the deployed one and every state a
    transaction, by any sender, leads to. *)
Inductive reachable : State -> Prop :=
| reachable_deployed st : reachable (deployed st)
| reachable_transact s sender c :
    reachable s -> reachable (transact sender c s).2.

(** Running a trace of transactions, collecting their outcomes. *)
Fixpoint run (tr : list (address * Call)) (s : State)
  : list (Call * Outcome Value) * State :=
  match tr with
  | [] => ([], s)
  | (sender, c) :: tr' =>
      let r := transact sender c s in
      let rest := run tr' r.2 in
      ((c, r.1) :: rest.1, rest.2)
  end.

(** The ids returned by the successful [createTicket] calls of a trace. *)
Fixpoint createdIds (outs : list (Call * Outcome Value)) : list N :=
  match outs with
  | [] => []
  | (CreateTicket _ _ _ _ _, Success (VUint n)) :: outs' => n :: createdIds outs'
  | _ :: outs' => createdIds outs'
  end.

(** ** The state invariant

    Ids below the count are exactly the tickets that exist, and the
    per-owner arrays list, without repetition, exactly the tickets whose
    [owner] field is that address. *)
Record Inv (s : State) : Prop := mkInv {
  inv_fresh : forall i, _ticketCount s <= i -> _tickets s !! i = None;
  inv_created : forall i, i < _ticketCount s ->
    exists t, _tickets s !! i = Some t /\ exists_ t = true;
  inv_exists : forall i t, _tickets s !! i = Some t -> exists_ t = true;
  inv_index : forall P i,
    i ∈ ownerTicketsAt s P <->
    exists_ (ticketAt s i) = true /\ owner (ticketAt s i) = P;
  inv_NoDup : forall P, NoDup (ownerTicketsAt s P);
}.

(** ** Frames

    The fields of a ticket that are fixed when it is created. *)
Definition same_static (t t' : Ticket) : Prop :=
  eventName t' = eventName t /\ venue t' = venue t /\ date t' = date t
  /\ encryptedSeatNumber t' = encryptedSeatNumber t.

(** [s'] differs from [s] at most in the lock handle of ticket [ticketId]. *)
Definition differs_only_in_lock (ticketId : uint256) (s s' : State) : Prop :=
  (forall j, j <> ticketId -> ticketAt s' j = ticketAt s j)
  /\ ticketAt s' ticketId
     = with_isLocked (isLocked (ticketAt s' ticketId)) (ticketAt s ticketId)
  /\ _ticketCount s' = _ticketCount s
  /\ forall P, ownerTicketsAt s' P = ownerTicketsAt s P.

(** [s'] differs from [s] at most in the owner of ticket [ticketId] and in
    the arrays of the two addresses [A] and [B]. *)
Definition differs_only_in_owner (ticketId : uint256) (A B : address)
    (s s' : State) : Prop :=
  (forall j, j <> ticketId -> ticketAt s' j = ticketAt s j)
  /\ ticketAt s' ticketId
     = with_owner (owner (ticketAt s' ticketId)) (ticketAt s ticketId)
  /\ _ticketCount s' = _ticketCount s
  /\ forall P, P <> A -> P <> B -> ownerTicketsAt s' P = ownerTicketsAt s P.

Definition is_view (c : Call) : bool :=
  match c with
  | GetTicketCount | GetOwnerTickets _ | GetTicketMetadata _
  | GetEncryptedSeatNumber _ | GetEncryptedLockStatus _ => true
  | _ => false
  end.

(** Calling [op] twice in a row succeeds both times, the lock handle the
    owner reads after each call stands for [b], and the second call changes
    nothing but that handle. *)
Definition repeatable_with_lock (op : address -> uint256 -> M unit) (b : bool)
    (s : State) (sender : address) (ticketId : uint256) : Prop :=
  exists s1 s2 h1 h2,
    call (op sender ticketId) s = (Success tt, s1)
    /\ call (op sender ticketId) s1 = (Success tt, s2)
    /\ getEncryptedLockStatus sender ticketId s1 = Ok h1 s1
    /\ cleartext (coprocessor s1) h1 = Some b
    /\ getEncryptedLockStatus sender ticketId s2 = Ok h2 s2
    /\ cleartext (coprocessor s2) h2 = Some b
    /\ differs_only_in_lock ticketId s1 s2.

(** ** Post-states of the mutating functions *)

Definition created_state (sender : address) (eventName venue date : string)
    (seatNumber : euint32) (st : fhe_state) (s : State) : State :=
  let locked := (FHE_asEbool true st).1 in
  {| _tickets :=
       <[_ticketCount s :=
           {| eventName := eventName; venue := venue; date := date;
              encryptedSeatNumber := seatNumber; isLocked := locked;
              owner := sender; exists_ := true |}]> (_tickets s);
     _ticketCount := _ticketCount s + 1;
     _ownerTickets :=
       <[sender := ownerTicketsAt s sender ++ [_ticketCount s]]> (_ownerTickets s);
     coprocessor :=
       FHE_allow locked sender (FHE_allowThis locked
         (FHE_allow seatNumber sender (FHE_allowThis seatNumber
            (FHE_asEbool true st).2)));
     events := events s ++ [TicketCreated (_ticketCount s) sender eventName] |}.

Definition lock_state (b : bool) (sender : address) (ticketId : uint256)
    (s : State) : State :=
  let h := (FHE_asEbool b (coprocessor s)).1 in
  {| _tickets := <[ticketId := with_isLocked h (ticketAt s ticketId)]> (_tickets s);
     _ticketCount := _ticketCount s;
     _ownerTickets := _ownerTickets s;
     coprocessor :=
       FHE_allow h sender (FHE_allowThis h (FHE_asEbool b (coprocessor s)).2);
     events := events s ++ [TicketLockStatusChanged ticketId sender] |}.

Definition transferred_state (ticketId : uint256) (newOwner : address)
    (s : State) : State :=
  let t := ticketAt s ticketId in
  let previousOwner := owner t in
  let removed :=
    <[previousOwner :=
        removeLoop (length (ownerTicketsAt s previousOwner)) 0 ticketId
          (ownerTicketsAt s previousOwner)]> (_ownerTickets s) in
  {| _tickets := <[ticketId := with_owner newOwner t]> (_tickets s);
     _ticketCount := _ticketCount s;
     _ownerTickets :=
       <[newOwner := default [] (removed !! newOwner) ++ [ticketId]]> removed;
     coprocessor :=
       FHE_allow (isLocked t) newOwner
         (FHE_allow (encryptedSeatNumber t) newOwner (coprocessor s));
     events := events s ++ [TicketTransferred ticketId previousOwner newOwner] |}.

(** ** The event log *)

(** Ids carried by the [TicketCreated] events of a log, oldest first. *)
Fixpoint createdEventIds (log : list Event) : list N :=
  match log with
  | [] => []
  | TicketCreated ticketId _ _ :: log' => ticketId :: createdEventIds log'
  | _ :: log' => createdEventIds log'
  end.

(** Every ticket that exists has an owner other than [address(0)]. *)
Definition owners_nonzero (s : State) : Prop :=
  forall i, exists_ (ticketAt s i) = true -> owner (ticketAt s i) <> 0.

(** ** The [task:get-tickets] command line task

    The task reads the signer's ids with [getOwnerTickets], then the
    metadata of each with [getTicketMetadata], and logs a line per value.
    A line is kept as its template and the values put into it.  The reads
    are made against one state of the contract. *)
Inductive LogLine :=
| LogTicketVault (vault : address)          (* TicketVault: <address> *)
| LogOwnerHas (signer : address) (n : nat)  (* Owner <signer> has <n> tickets *)
| LogTicket (ticketId : uint256)            (* Ticket #<id>: *)
| LogEvent (eventName : string)             (*   Event: <eventName> *)
| LogVenue (venue : string)                 (*   Venue: <venue> *)
| LogDate (date : string)                   (*   Date: <date> *)
| LogOwner (owner : address).               (*   Owner: <owner> *)

Fixpoint logTickets (ticketIds : list N) : M (list LogLine) :=
  match ticketIds with
  | [] => ret []
  | ticketId :: rest =>
      metadata <- getTicketMetadata ticketId ;;
      lines <- logTickets rest ;;
      ret ([LogTicket ticketId;
            LogEvent metadata.1.1.1.1;
            LogVenue metadata.1.1.1.2;
            LogDate metadata.1.1.2;
            LogOwner metadata.1.2] ++ lines)
  end.

Definition task_get_tickets (vault signer : address) : M (list LogLine) :=
  ticketIds <- getOwnerTickets signer ;;
  lines <- logTickets ticketIds ;;
  ret (LogTicketVault vault :: LogOwnerHas signer (length ticketIds) :: lines).

(** The ids and the owners a log shows, in order. *)
Fixpoint loggedIds (lines : list LogLine) : list N :=
  match lines with
  | [] => []
  | LogTicket ticketId :: lines' => ticketId :: loggedIds lines'
  | _ :: lines' => loggedIds lines'
  end.

Fixpoint loggedOwners (lines : list LogLine) : list N :=
  match lines with
  | [] => []
  | LogOwner a :: lines' => a :: loggedOwners lines'
  | _ :: lines' => loggedOwners lines'
  end.

(** The number of successful transactions of a trace that are not reads. *)
Fixpoint successfulWrites (outs : list (Call * Outcome Value)) : nat :=
  match outs with
  | [] => 0
  | (c, Success _) :: outs' =>
      if is_view c then successfulWrites outs' else S (successfulWrites outs')
  | (_, Failure _) :: outs' => successfulWrites outs'
  end.

End TicketVault.

(** ** A deterministic coprocessor

    A stand-in for the FHE library of the kind the test-suite runs
    against: handles of booleans are drawn from a counter and remembered
    with their plaintext, an input proof verifies when it names the
    ciphertext and the sender, and the access-control list is a set of
    (handle, address) pairs. *)
Record MockState := mkMock {
  mock_next : N;
  mock_bools : gmap N bool;
  mock_acl : gset (N * N);
}.

Definition mock_init : MockState :=
  {| mock_next := 1; mock_bools := ∅; mock_acl := ∅ |}.

Definition mock_this : address := 4096.

Definition mock_fromExternal (encryptedSeat : externalEuint32) (seatProof : bytes)
    (sender : address) (st : MockState) : option (euint32 * MockState) :=
  match seatProof with
  | [e; a] => if (e =? encryptedSeat) && (a =? sender)
              then Some (encryptedSeat, st) else None
  | _ => None
  end.

Definition mock_asEbool (b : bool) (st : MockState) : ebool * MockState :=
  (mock_next st,
   {| mock_next := mock_next st + 1;
      mock_bools := <[mock_next st := b]> (mock_bools st);
      mock_acl := mock_acl st |}).

Definition mock_allow (h : bytes32) (a : address) (st : MockState) : MockState :=
  {| mock_next := mock_next st; mock_bools := mock_bools st;
     mock_acl := {[(h, a)]} ∪ mock_acl st |}.

Definition mock_cleartext (st : MockState) (h : ebool) : option bool :=
  mock_bools st !! h.

Lemma mock_cleartext_asEbool b st :
  mock_cleartext (mock_asEbool b st).2 (mock_asEbool b st).1 = Some b.
Proof. unfold mock_cleartext, mock_asEbool. simpl. apply lookup_insert_eq. Qed.

Definition MockFHE : FHELib :=
  {| fhe_state := MockState;
     FHE_fromExternal := mock_fromExternal;
     FHE_asEbool := mock_asEbool;
     FHE_allowThis := fun h => mock_allow h mock_this;
     FHE_allow := mock_allow;
     cleartext := mock_cleartext;
     cleartext_asEbool := mock_cleartext_asEbool;
     cleartext_allowThis := fun _ _ _ => eq_refl;
     cleartext_allow := fun _ _ _ _ => eq_refl |}.

(** ** A scenario over the deterministic coprocessor

    Alice creates ticket 0, then transfers it to Bob. *)
Definition alice : address := 10.
Definition bob : address := 11.

Definition s0 : @State MockFHE := @deployed MockFHE mock_init.

Definition concert : Call :=
  CreateTicket "Concert"%string "Arena"%string "2025-03-15"%string 42 [42; alice].

Definition s1 : @State MockFHE := (transact alice concert s0).2.

Definition s2 : @State MockFHE := (transact alice (TransferTicket 0 bob) s1).2.

Definition busy_trace : list (address * Call) :=
  [(alice, UnlockTicket 0); (alice, TransferTicket 0 bob);
   (bob, concert); (bob, LockTicket 0)].

(** Alice holds three tickets and passes the first one to Bob and back. *)
Definition s3 : @State MockFHE :=
  (run [(alice, concert); (alice, concert); (alice, concert)] s0).2.

Definition s4 : @State MockFHE := (transact alice (TransferTicket 0 bob) s3).2.

Definition s5 : @State MockFHE := (transact bob (TransferTicket 0 alice) s4).2.

Section Verification.
Context `{fhe : FHELib}.
Local Set Warnings "-clear-no-such-hyp".

(** ** The removal loop *)

Lemma swap_pop_Permutation (a : list N) (k : nat) (x z : N) :
  a !! k = Some x ->
  a !! (length a - 1)%nat = Some z ->
  a ≡ₚ x :: take (length a - 1)%nat (<[k := z]> a).
Proof.
  destruct a as [|y a' _] using rev_ind; [done|].
  intros Hk Hz.
  rewrite length_app in *. simpl in *.
  replace (length a' + 1 - 1)%nat with (length a') in * by lia.
  rewrite lookup_app_r in Hz by lia.
  rewrite Nat.sub_diag in Hz. simpl in Hz. injection Hz as ->.
  destruct (decide (k < length a')%nat) as [Hlt|Hge].
  - rewrite lookup_app_l in Hk by done.
    rewrite insert_app_l by done.
    rewrite take_app_length' by (by rewrite length_insert).
    rewrite insert_take_drop by done.
    rewrite <- (take_drop_middle a' k x Hk) at 1.
    rewrite <- !app_assoc. simpl.
    rewrite <- Permutation_middle. constructor.
    apply Permutation_app_head.
    rewrite (Permutation_app_comm (drop (S k) a') [z]). done.
  - assert (k = length a') as ->.
    { apply lookup_lt_Some in Hk. rewrite length_app in Hk. simpl in Hk. lia. }
    rewrite lookup_app_r in Hk by lia.
    rewrite Nat.sub_diag in Hk. simpl in Hk. injection Hk as ->.
    rewrite insert_app_r_alt by lia. rewrite Nat.sub_diag. simpl.
    rewrite take_app_length.
    symmetry. apply Permutation_cons_append.
Qed.

Lemma removeLoop_spec (fuel i : nat) (ticketId : N) (a : list N) :
  (length a <= i + fuel)%nat ->
  (forall j x, (j < i)%nat -> a !! j = Some x -> x <> ticketId) ->
  ((ticketId ∉ a) /\ removeLoop fuel i ticketId a = a)
  \/ a ≡ₚ ticketId :: removeLoop fuel i ticketId a.
Proof.
  revert i. induction fuel as [|fuel IH]; intros i Hlen Hbefore; simpl.
  - left. split; [|done].
    intros [j Hj]%list_elem_of_lookup.
    apply (Hbefore j ticketId); [|done..].
    apply lookup_lt_Some in Hj. lia.
  - destruct (a !! i) as [x|] eqn:Hi.
    + destruct (x =? ticketId) eqn:Hx.
      * apply N.eqb_eq in Hx as ->. right.
        destruct (a !! (length a - 1)%nat) as [z|] eqn:Hz.
        -- simpl. by apply swap_pop_Permutation.
        -- apply lookup_lt_Some in Hi. apply lookup_ge_None in Hz. lia.
      * apply N.eqb_neq in Hx.
        apply IH; [lia|].
        intros j y Hj Hy.
        destruct (decide (j = i)) as [->|]; [congruence|].
        apply (Hbefore j y); [lia|done].
    + left. split; [|done].
      intros [j Hj]%list_elem_of_lookup.
      apply (Hbefore j ticketId); [|done..].
      apply lookup_lt_Some in Hj. apply lookup_ge_None in Hi. lia.
Qed.

Lemma removeLoop_absent (ticketId : N) (a : list N) :
  ticketId ∉ a -> removeLoop (length a) 0 ticketId a = a.
Proof.
  intros Hnotin.
  destruct (removeLoop_spec (length a) 0 ticketId a
              ltac:(lia) ltac:(intros; lia)) as [[_ ?]|Hperm]; [done|].
  exfalso. apply Hnotin. rewrite Hperm. by left.
Qed.

Lemma removeLoop_present (ticketId : N) (a : list N) :
  ticketId ∈ a -> a ≡ₚ ticketId :: removeLoop (length a) 0 ticketId a.
Proof.
  intros Hin.
  destruct (removeLoop_spec (length a) 0 ticketId a
              ltac:(lia) ltac:(intros; lia)) as [[? _]|Hperm]; done.
Qed.

(** On a duplicate-free array that holds the id, the loop removes it and
    keeps everything else. *)
Lemma removeLoop_NoDup (ticketId : N) (a : list N) :
  NoDup a -> ticketId ∈ a ->
  NoDup (removeLoop (length a) 0 ticketId a)
  /\ forall x, x ∈ removeLoop (length a) 0 ticketId a <-> x ∈ a /\ x <> ticketId.
Proof.
  intros Hnd Hin.
  pose proof (removeLoop_present ticketId a Hin) as Hperm.
  generalize dependent (removeLoop (length a) 0 ticketId a). intros r Hperm.
  rewrite Hperm in Hnd. apply NoDup_cons in Hnd as [Hnotin Hnd].
  split; [done|].
  intros x. rewrite Hperm. rewrite elem_of_cons.
  split.
  - intros Hx. split; [by right|]. intros ->. done.
  - intros [[->|Hx] Hne]; done.
Qed.

(** ** What each function computes *)

Ltac unfold_contract :=
  unfold getTicketCount, getOwnerTickets, getTicketMetadata,
    getEncryptedSeatNumber, getEncryptedLockStatus, createTicket,
    unlockTicket, lockTicket, transferTicket,
    removeOwnerTicket, pushOwnerTicket, updateTicket, writeTicket, readTicket,
    incrementTicketCount, emit, fromExternal, asEbool, allowThis, allow,
    bind, ret, require, gets, modify.

Lemma getTicketMetadata_run ticketId s :
  getTicketMetadata ticketId s =
  Ok (eventName (ticketAt s ticketId), venue (ticketAt s ticketId),
      date (ticketAt s ticketId), owner (ticketAt s ticketId),
      exists_ (ticketAt s ticketId)) s.
Proof. reflexivity. Qed.

Lemma getEncryptedSeatNumber_run sender ticketId s :
  getEncryptedSeatNumber sender ticketId s =
  if exists_ (ticketAt s ticketId)
  then if owner (ticketAt s ticketId) =? sender
       then Ok (encryptedSeatNumber (ticketAt s ticketId)) s
       else Revert NotTicketOwner
  else Revert TicketDoesNotExist.
Proof.
  unfold_contract.
  destruct (exists_ _); [|done]. by destruct (_ =? _).
Qed.

Lemma getEncryptedLockStatus_run sender ticketId s :
  getEncryptedLockStatus sender ticketId s =
  if exists_ (ticketAt s ticketId)
  then if owner (ticketAt s ticketId) =? sender
       then Ok (isLocked (ticketAt s ticketId)) s
       else Revert NotTicketOwner
  else Revert TicketDoesNotExist.
Proof.
  unfold_contract.
  destruct (exists_ _); [|done]. by destruct (_ =? _).
Qed.

Lemma createTicket_run sender e v d enc proof s :
  createTicket sender e v d enc proof s =
  if _ticketCount s <? MAX_UINT256
  then match FHE_fromExternal enc proof sender (coprocessor s) with
       | Some (h, st) => Ok (_ticketCount s) (created_state sender e v d h st s)
       | None => Revert InputProofRejected
       end
  else Revert ArithmeticPanic.
Proof.
  unfold_contract.
  destruct (_ <? _); [|done]. simpl.
  by destruct (FHE_fromExternal _ _ _ _) as [[h st]|].
Qed.

Lemma unlockTicket_run sender ticketId s :
  unlockTicket sender ticketId s =
  if exists_ (ticketAt s ticketId)
  then if owner (ticketAt s ticketId) =? sender
       then Ok tt (lock_state false sender ticketId s)
       else Revert NotTicketOwner
  else Revert TicketDoesNotExist.
Proof.
  unfold_contract.
  destruct (exists_ _); [|done]. by destruct (_ =? _).
Qed.

Lemma lockTicket_run sender ticketId s :
  lockTicket sender ticketId s =
  if exists_ (ticketAt s ticketId)
  then if owner (ticketAt s ticketId) =? sender
       then Ok tt (lock_state true sender ticketId s)
       else Revert NotTicketOwner
  else Revert TicketDoesNotExist.
Proof.
  unfold_contract.
  destruct (exists_ _); [|done]. by destruct (_ =? _).
Qed.

Lemma transferTicket_run sender ticketId newOwner s :
  transferTicket sender ticketId newOwner s =
  if exists_ (ticketAt s ticketId)
  then if owner (ticketAt s ticketId) =? sender
       then if newOwner =? 0 then Revert InvalidNewOwner
            else if newOwner =? sender then Revert CannotTransferToSelf
                 else Ok tt (transferred_state ticketId newOwner s)
       else Revert NotTicketOwner
  else Revert TicketDoesNotExist.
Proof.
  unfold_contract.
  destruct (exists_ _); [|done].
  destruct (_ =? sender); [|done].
  destruct (newOwner =? 0); [done|].
  destruct (newOwner =? sender); [done|]. simpl.
  unfold transferred_state, ticketAt, ownerTicketsAt. simpl.
  rewrite lookup_insert_eq. simpl. done.
Qed.

(** ** Reading the post-states *)

Lemma ticketAt_created sender e v d h st s j :
  ticketAt (created_state sender e v d h st s) j =
  if decide (_ticketCount s = j)
  then {| eventName := e; venue := v; date := d; encryptedSeatNumber := h;
          isLocked := (FHE_asEbool true st).1; owner := sender; exists_ := true |}
  else ticketAt s j.
Proof. unfold ticketAt, created_state. simpl. rewrite lookup_insert. by case_decide. Qed.

Lemma ownerTicketsAt_created sender e v d h st s P :
  ownerTicketsAt (created_state sender e v d h st s) P =
  if decide (sender = P) then ownerTicketsAt s sender ++ [_ticketCount s]
  else ownerTicketsAt s P.
Proof.
  unfold ownerTicketsAt, created_state. simpl. rewrite lookup_insert. by case_decide.
Qed.

Lemma ticketAt_lock b sender ticketId s j :
  ticketAt (lock_state b sender ticketId s) j =
  if decide (ticketId = j)
  then with_isLocked (FHE_asEbool b (coprocessor s)).1 (ticketAt s ticketId)
  else ticketAt s j.
Proof. unfold ticketAt, lock_state. simpl. rewrite lookup_insert. by case_decide. Qed.

Lemma ticketAt_transferred ticketId newOwner s j :
  ticketAt (transferred_state ticketId newOwner s) j =
  if decide (ticketId = j) then with_owner newOwner (ticketAt s ticketId)
  else ticketAt s j.
Proof.
  unfold ticketAt, transferred_state. simpl. rewrite lookup_insert. by case_decide.
Qed.

Lemma ownerTicketsAt_transferred ticketId newOwner s P :
  newOwner <> owner (ticketAt s ticketId) ->
  ownerTicketsAt (transferred_state ticketId newOwner s) P =
  if decide (newOwner = P) then ownerTicketsAt s newOwner ++ [ticketId]
  else if decide (owner (ticketAt s ticketId) = P)
       then removeLoop (length (ownerTicketsAt s P)) 0 ticketId (ownerTicketsAt s P)
       else ownerTicketsAt s P.
Proof.
  intros Hne. unfold ownerTicketsAt at 1. unfold transferred_state. simpl.
  rewrite lookup_insert. case_decide as HP.
  - simpl. rewrite lookup_insert_ne by done. done.
  - rewrite lookup_insert. case_decide as HP'; [|done]. simpl. by rewrite HP'.
Qed.

(** A ticket that exists is stored, below the count. *)
Lemma exists_stored s i :
  exists_ (ticketAt s i) = true -> _tickets s !! i = Some (ticketAt s i).
Proof. unfold ticketAt. by destruct (_tickets s !! i). Qed.

Lemma Inv_exists_lt s i :
  Inv s -> exists_ (ticketAt s i) = true -> i < _ticketCount s.
Proof.
  intros HI Hex. apply exists_stored in Hex.
  destruct (decide (i < _ticketCount s)) as [|Hge]; [done|].
  rewrite (inv_fresh s HI i) in Hex by lia. done.
Qed.

Lemma Inv_fresh_ticketAt s i :
  Inv s -> _ticketCount s <= i -> ticketAt s i = zeroTicket.
Proof. intros HI Hge. unfold ticketAt. by rewrite (inv_fresh s HI i Hge). Qed.

Lemma Inv_lt_exists s i :
  Inv s -> i < _ticketCount s -> exists_ (ticketAt s i) = true.
Proof.
  intros HI Hlt. destruct (inv_created s HI i Hlt) as (t & Ht & Hex).
  unfold ticketAt. by rewrite Ht.
Qed.

(** ** The invariant holds in every reachable state *)

Lemma Inv_deployed st : Inv (deployed st).
Proof.
  split; simpl.
  - intros. apply lookup_empty.
  - intros i Hi. lia.
  - intros i t Hi. by rewrite lookup_empty in Hi.
  - intros P i. unfold ownerTicketsAt, ticketAt. simpl. rewrite !lookup_empty. simpl.
    split; [by intros ?%not_elem_of_nil|by intros [? _]].
  - intros P. unfold ownerTicketsAt. simpl. rewrite lookup_empty. constructor.
Qed.

Lemma Inv_created sender e v d h st s :
  Inv s -> Inv (created_state sender e v d h st s).
Proof.
  intros HI.
  assert (Hnew : forall P, _ticketCount s ∉ ownerTicketsAt s P).
  { intros P [Hex _]%(inv_index s HI). apply (Inv_exists_lt s _ HI) in Hex. lia. }
  split.
  - intros i Hi. simpl in *. rewrite lookup_insert_ne by lia.
    apply (inv_fresh s HI). lia.
  - intros i Hi. simpl in *. rewrite lookup_insert. case_decide.
    + eauto.
    + apply (inv_created s HI). lia.
  - intros i t. simpl. rewrite lookup_insert. case_decide.
    + by intros [= <-].
    + apply (inv_exists s HI).
  - intros P i. rewrite ownerTicketsAt_created, ticketAt_created.
    destruct (decide (sender = P)) as [->|HP]; destruct (decide (_ticketCount s = i)) as [<-|Hi]; simpl.
    + rewrite elem_of_app, list_elem_of_singleton. naive_solver.
    + rewrite elem_of_app, list_elem_of_singleton, (inv_index s HI). naive_solver.
    + split; [by intros ?%Hnew|by intros [_ ?]].
    + apply (inv_index s HI).
  - intros P. rewrite ownerTicketsAt_created. case_decide as HP.
    + apply NoDup_app. split_and!.
      * apply (inv_NoDup s HI).
      * intros x Hx ->%list_elem_of_singleton. by apply (Hnew sender).
      * apply NoDup_singleton.
    + apply (inv_NoDup s HI).
Qed.

Lemma Inv_lock b sender ticketId s :
  Inv s -> exists_ (ticketAt s ticketId) = true ->
  Inv (lock_state b sender ticketId s).
Proof.
  intros HI Hex. pose proof (exists_stored s ticketId Hex) as Hst.
  split.
  - intros i Hi. simpl in *. rewrite lookup_insert. case_decide as Hid.
    + subst i. by rewrite (inv_fresh s HI ticketId Hi) in Hst.
    + by apply (inv_fresh s HI).
  - intros i Hi. simpl in *. rewrite lookup_insert. case_decide.
    + eauto.
    + by apply (inv_created s HI).
  - intros i t. simpl. rewrite lookup_insert. case_decide.
    + by intros [= <-].
    + apply (inv_exists s HI).
  - intros P i. rewrite ticketAt_lock.
    change (ownerTicketsAt (lock_state b sender ticketId s) P) with (ownerTicketsAt s P).
    case_decide as Hid; [subst i|]; apply (inv_index s HI).
  - intros P. apply (inv_NoDup s HI).
Qed.

Lemma Inv_transferred ticketId newOwner s :
  Inv s -> exists_ (ticketAt s ticketId) = true ->
  newOwner <> owner (ticketAt s ticketId) ->
  Inv (transferred_state ticketId newOwner s).
Proof.
  intros HI Hex Hne. pose proof (exists_stored s ticketId Hex) as Hst.
  assert (Hin : ticketId ∈ ownerTicketsAt s (owner (ticketAt s ticketId))).
  { by apply (inv_index s HI). }
  pose proof (removeLoop_NoDup ticketId _ (inv_NoDup s HI _) Hin) as [Hnd Hmem].
  split.
  - intros i Hi. simpl in *. rewrite lookup_insert. case_decide as Hid.
    + subst i. by rewrite (inv_fresh s HI ticketId Hi) in Hst.
    + by apply (inv_fresh s HI).
  - intros i Hi. simpl in *. rewrite lookup_insert. case_decide.
    + eauto.
    + by apply (inv_created s HI).
  - intros i t. simpl. rewrite lookup_insert. case_decide.
    + by intros [= <-].
    + apply (inv_exists s HI).
  - intros P i. rewrite ownerTicketsAt_transferred, ticketAt_transferred by done.
    destruct (decide (newOwner = P)) as [->|HP].
    + rewrite elem_of_app, list_elem_of_singleton.
      case_decide as Hid; simpl.
      * subst i. naive_solver.
      * rewrite (inv_index s HI). naive_solver.
    + destruct (decide (owner (ticketAt s ticketId) = P)) as [<-|HP'].
      * rewrite Hmem, (inv_index s HI). case_decide as Hid; simpl; naive_solver.
      * rewrite (inv_index s HI). case_decide as Hid; simpl; naive_solver.
  - intros P. rewrite ownerTicketsAt_transferred by done.
    destruct (decide (newOwner = P)) as [->|HP].
    + apply NoDup_app. split_and!.
      * apply (inv_NoDup s HI).
      * intros x Hx ->%list_elem_of_singleton.
        apply (inv_index s HI) in Hx as [_ Hx]. done.
      * apply NoDup_singleton.
    + case_decide as HP'; [by subst P|apply (inv_NoDup s HI)].
Qed.

(** What a transaction does to storage, call by call. *)
Lemma transact_state sender c s :
  (transact sender c s).2 = s
  \/ (exists e v d enc proof h st,
        c = CreateTicket e v d enc proof /\
        _ticketCount s < MAX_UINT256 /\
        FHE_fromExternal enc proof sender (coprocessor s) = Some (h, st) /\
        transact sender c s = (Success (VUint (_ticketCount s)),
                               created_state sender e v d h st s))
  \/ (exists b ticketId,
        (c = LockTicket ticketId /\ b = true \/ c = UnlockTicket ticketId /\ b = false) /\
        exists_ (ticketAt s ticketId) = true /\
        owner (ticketAt s ticketId) = sender /\
        transact sender c s = (Success VUnit, lock_state b sender ticketId s))
  \/ (exists ticketId newOwner,
        c = TransferTicket ticketId newOwner /\
        exists_ (ticketAt s ticketId) = true /\
        owner (ticketAt s ticketId) = sender /\
        newOwner <> 0 /\ newOwner <> sender /\
        transact sender c s = (Success VUnit, transferred_state ticketId newOwner s)).
Proof.
  destruct c as [e v d enc proof|ticketId|ticketId|ticketId newOwner| | | | | ];
    unfold transact, call, dispatch, bind.
  - rewrite createTicket_run.
    destruct (_ticketCount s <? MAX_UINT256) eqn:Hlt; [|by left].
    destruct (FHE_fromExternal enc proof sender (coprocessor s)) as [[h st]|] eqn:Hfx;
      [|by left].
    right. left. apply N.ltb_lt in Hlt. by exists e, v, d, enc, proof, h, st.
  - rewrite unlockTicket_run.
    destruct (exists_ (ticketAt s ticketId)) eqn:Hex; [|by left].
    destruct (owner (ticketAt s ticketId) =? sender) eqn:Hown; [|by left].
    apply N.eqb_eq in Hown. right. right. left. exists false, ticketId. naive_solver.
  - rewrite lockTicket_run.
    destruct (exists_ (ticketAt s ticketId)) eqn:Hex; [|by left].
    destruct (owner (ticketAt s ticketId) =? sender) eqn:Hown; [|by left].
    apply N.eqb_eq in Hown. right. right. left. exists true, ticketId. naive_solver.
  - rewrite transferTicket_run.
    destruct (exists_ (ticketAt s ticketId)) eqn:Hex; [|by left].
    destruct (owner (ticketAt s ticketId) =? sender) eqn:Hown; [|by left].
    destruct (newOwner =? 0) eqn:Hz; [by left|].
    destruct (newOwner =? sender) eqn:Hself; [by left|].
    apply N.eqb_eq in Hown. apply N.eqb_neq in Hz, Hself.
    right. right. right. by exists ticketId, newOwner.
  - by left.
  - by left.
  - by left.
  - rewrite getEncryptedSeatNumber_run.
    destruct (exists_ _); [|by left]. destruct (_ =? _); by left.
  - rewrite getEncryptedLockStatus_run.
    destruct (exists_ _); [|by left]. destruct (_ =? _); by left.
Qed.

Lemma transact_Inv sender c s : Inv s -> Inv (transact sender c s).2.
Proof.
  intros HI.
  destruct (transact_state sender c s)
    as [->|[(e & v & d & enc & proof & h & st & _ & _ & _ & ->)
       |[(b & ticketId & _ & Hex & _ & ->)
        |(ticketId & newOwner & _ & Hex & Hown & _ & Hself & ->)]]]; simpl.
  - done.
  - by apply Inv_created.
  - by apply Inv_lock.
  - apply Inv_transferred; [done..|]. by rewrite Hown.
Qed.

Lemma reachable_Inv s : reachable s -> Inv s.
Proof.
  induction 1 as [st|s sender c _ IH]; [apply Inv_deployed|by apply transact_Inv].
Qed.

Lemma run_Inv tr s : Inv s -> Inv (run tr s).2.
Proof.
  revert s. induction tr as [|[sender c] tr IH]; intros s HI; simpl; [done|].
  apply IH. by apply transact_Inv.
Qed.

Lemma run_reachable tr s : reachable s -> reachable (run tr s).2.
Proof.
  revert s. induction tr as [|[sender c] tr IH]; intros s HI; simpl; [done|].
  apply IH. by constructor.
Qed.

(** ** Sequential ids *)

Lemma transact_create sender e v d enc proof s :
  (exists err, transact sender (CreateTicket e v d enc proof) s = (Failure err, s))
  \/ (exists s', transact sender (CreateTicket e v d enc proof) s
                   = (Success (VUint (_ticketCount s)), s')
                 /\ _ticketCount s' = _ticketCount s + 1).
Proof.
  unfold transact, call, dispatch, bind. rewrite createTicket_run.
  destruct (_ <? _); [|left; by eexists].
  destruct (FHE_fromExternal _ _ _ _) as [[h st]|]; [|left; by eexists].
  right. by eexists.
Qed.

Lemma transact_count sender c s :
  (forall e v d enc proof, c <> CreateTicket e v d enc proof) ->
  _ticketCount (transact sender c s).2 = _ticketCount s.
Proof.
  intros Hc.
  destruct (transact_state sender c s)
    as [->|[(e & v & d & enc & proof & h & st & -> & _)
       |[(b & ticketId & _ & _ & _ & ->)|(ticketId & newOwner & _ & _ & _ & _ & _ & ->)]]];
    try done.
  by destruct (Hc e v d enc proof).
Qed.

Lemma run_createdIds tr s :
  exists n : nat,
    createdIds (run tr s).1 = map (fun k => _ticketCount s + N.of_nat k) (seq 0 n)
    /\ _ticketCount (run tr s).2 = _ticketCount s + N.of_nat n.
Proof.
  revert s. induction tr as [|[sender c] tr IH]; intros s; simpl.
  - exists 0%nat. split; [done|lia].
  - destruct (IH (transact sender c s).2) as (n & Hids & Hcount).
    assert (Hother : (forall e v d enc proof, c <> CreateTicket e v d enc proof) ->
      exists n : nat,
        createdIds ((c, (transact sender c s).1) :: (run tr (transact sender c s).2).1)
        = map (fun k => _ticketCount s + N.of_nat k) (seq 0 n)
        /\ _ticketCount (run tr (transact sender c s).2).2 = _ticketCount s + N.of_nat n).
    { intros Hc. exists n. rewrite (transact_count sender c s Hc) in Hids, Hcount.
      split; [|done]. rewrite <- Hids.
      destruct c; try done. by destruct (Hc eventName0 venue0 date0 encryptedSeat seatProof). }
    destruct c as [e v d enc proof| | | | | | | | ]; try (by apply Hother).
    clear Hother.
    destruct (transact_create sender e v d enc proof s) as [[err Hf]|(s' & Hs & Hc)].
    + rewrite Hf in *. simpl in *. by exists n.
    + rewrite Hs in *. simpl in *. exists (S n). split.
      * simpl. f_equal; [lia|].
        rewrite Hids, <- seq_shift, map_map.
        apply map_ext. intros k. lia.
      * lia.
Qed.

(** C2. Along any trace of transactions from the deployed state, the ids
    returned by the successful [createTicket] calls are, in call order,
    [0, 1, ..., n-1], and [getTicketCount] then returns their number [n]:
    the count is always the next id to assign. *)
Theorem sequential_ids (tr : list (address * Call)) (st : fhe_state) :
  let r := run tr (deployed st) in
  let n := length (createdIds r.1) in
  createdIds r.1 = map N.of_nat (seq 0 n)
  /\ getTicketCount r.2 = Ok (N.of_nat n) r.2.
Proof.
  intros r n. subst r n.
  destruct (run_createdIds tr (deployed st)) as (n & Hids & Hcount).
  simpl in Hids, Hcount.
  rewrite Hids, length_map, length_seq. split; [done|].
  unfold getTicketCount, gets. by rewrite Hcount.
Qed.

(** ** Ownership index *)

(** C3. In every reachable state, for every address [P] and id [i], the
    array [getOwnerTickets P] holds [i] exactly when ticket [i] exists and
    its [owner] field, as [getTicketMetadata] reports it, is [P]. *)
Theorem ownership_index_consistent (s : State) (P : address) (i : uint256) :
  reachable s ->
  exists l e v d o ex,
    getOwnerTickets P s = Ok l s
    /\ getTicketMetadata i s = Ok (e, v, d, o, ex) s
    /\ (i ∈ l <-> ex = true /\ o = P).
Proof.
  intros HI%reachable_Inv.
  eexists _, _, _, _, _, _. split_and!; [reflexivity|reflexivity|].
  apply (inv_index s HI).
Qed.

(** ** Authorization *)

(** C4. On an existing ticket, a caller who is not the owner is refused by
    [getEncryptedSeatNumber], [getEncryptedLockStatus], [lockTicket],
    [unlockTicket] and [transferTicket] with "Not ticket owner"
    (NotAuthorized), and storage is left as it was. *)
Theorem non_owner_rejected (s : State) (sender : address) (ticketId : uint256) :
  exists_ (ticketAt s ticketId) = true ->
  owner (ticketAt s ticketId) <> sender ->
  kind NotTicketOwner = NotAuthorized
  /\ call (getEncryptedSeatNumber sender ticketId) s = (Failure NotTicketOwner, s)
  /\ call (getEncryptedLockStatus sender ticketId) s = (Failure NotTicketOwner, s)
  /\ call (lockTicket sender ticketId) s = (Failure NotTicketOwner, s)
  /\ call (unlockTicket sender ticketId) s = (Failure NotTicketOwner, s)
  /\ forall newOwner,
       call (transferTicket sender ticketId newOwner) s = (Failure NotTicketOwner, s).
Proof.
  intros Hex Hown%N.eqb_neq. unfold call.
  rewrite getEncryptedSeatNumber_run, getEncryptedLockStatus_run,
    lockTicket_run, unlockTicket_run, Hex, Hown.
  split_and!; try done.
  intros newOwner. by rewrite transferTicket_run, Hex, Hown.
Qed.

(** ** Transfer *)

(** C5. From a reachable state, after [transferTicket ticketId B] called by
    [A] succeeds, [getOwnerTickets A] no longer holds the id,
    [getOwnerTickets B] holds it exactly once, the ticket's owner is [B],
    and the ticket count is what it was. *)
Theorem transfer_moves_membership (s s' : State) (A B : address) (ticketId : uint256) :
  reachable s ->
  call (transferTicket A ticketId B) s = (Success tt, s') ->
  exists lA lB e v d,
    getOwnerTickets A s' = Ok lA s'
    /\ getOwnerTickets B s' = Ok lB s'
    /\ (ticketId ∉ lA)
    /\ count_occ N.eq_dec lB ticketId = 1%nat
    /\ getTicketMetadata ticketId s' = Ok (e, v, d, B, true) s'
    /\ getTicketCount s' = Ok (_ticketCount s) s'.
Proof.
  intros HI%reachable_Inv. unfold call. rewrite transferTicket_run.
  destruct (exists_ (ticketAt s ticketId)) eqn:Hex; [|done].
  destruct (owner (ticketAt s ticketId) =? A) eqn:Hown; [|done].
  destruct (B =? 0); [done|].
  destruct (B =? A) eqn:Hself; [done|].
  intros [= <-]. apply N.eqb_eq in Hown. apply N.eqb_neq in Hself.
  assert (Hne : B <> owner (ticketAt s ticketId)) by congruence.
  pose proof (Inv_transferred ticketId B s HI Hex Hne) as HI'.
  eexists _, _, _, _, _. split_and!; try reflexivity.
  - rewrite (inv_index _ HI'), ticketAt_transferred.
    rewrite decide_True by done. simpl. intros [_ ?]. congruence.
  - apply NoDup_count_occ'; [apply NoDup_ListNoDup, (inv_NoDup _ HI')|].
    apply list_elem_of_In, (inv_index _ HI'). rewrite ticketAt_transferred.
    rewrite decide_True by done. done.
  - rewrite getTicketMetadata_run, ticketAt_transferred.
    rewrite decide_True by done. simpl. by rewrite Hex.
Qed.

(** ** Ids never created *)

(** C10. For an id at or above the count, [getTicketMetadata] does not
    revert: it returns empty strings, the zero owner and [exists = false],
    and storage is left as it was. *)
Theorem metadata_of_missing_ticket (s : State) (ticketId : uint256) :
  reachable s ->
  _ticketCount s <= ticketId ->
  call (getTicketMetadata ticketId) s
  = (Success (EmptyString, EmptyString, EmptyString, 0, false), s).
Proof.
  intros HI%reachable_Inv Hge. unfold call.
  by rewrite getTicketMetadata_run, (Inv_fresh_ticketAt s ticketId HI Hge).
Qed.

(** C6, as amended. For an id at or above the count, in a reachable
    state, [getEncryptedSeatNumber], [getEncryptedLockStatus], [lockTicket],
    [unlockTicket] and [transferTicket] revert with "Ticket does not exist"
    (NotFound) and leave storage as it was; [getTicketMetadata] does not
    revert but returns the zero record, with [exists = false]. *)
Theorem missing_ticket_rejected (s : State) (sender : address) (ticketId : uint256) :
  reachable s ->
  _ticketCount s <= ticketId ->
  kind TicketDoesNotExist = NotFound
  /\ call (getEncryptedSeatNumber sender ticketId) s = (Failure TicketDoesNotExist, s)
  /\ call (getEncryptedLockStatus sender ticketId) s = (Failure TicketDoesNotExist, s)
  /\ call (lockTicket sender ticketId) s = (Failure TicketDoesNotExist, s)
  /\ call (unlockTicket sender ticketId) s = (Failure TicketDoesNotExist, s)
  /\ (forall newOwner,
        call (transferTicket sender ticketId newOwner) s
        = (Failure TicketDoesNotExist, s))
  /\ call (getTicketMetadata ticketId) s
     = (Success (EmptyString, EmptyString, EmptyString, 0, false), s).
Proof.
  intros HI%reachable_Inv Hge. unfold call.
  rewrite getEncryptedSeatNumber_run, getEncryptedLockStatus_run,
    lockTicket_run, unlockTicket_run, getTicketMetadata_run,
    (Inv_fresh_ticketAt s ticketId HI Hge).
  split_and!; try done.
  intros newOwner.
  by rewrite transferTicket_run, (Inv_fresh_ticketAt s ticketId HI Hge).
Qed.

(** ** Lock state *)

Lemma cleartext_created sender e v d h st s h' :
  cleartext (coprocessor (created_state sender e v d h st s)) h'
  = cleartext (FHE_asEbool true st).2 h'.
Proof.
  simpl. by rewrite !cleartext_allow, !cleartext_allowThis,
    !cleartext_allow, !cleartext_allowThis.
Qed.

Lemma cleartext_lock b sender ticketId s h' :
  cleartext (coprocessor (lock_state b sender ticketId s)) h'
  = cleartext (FHE_asEbool b (coprocessor s)).2 h'.
Proof. simpl. by rewrite cleartext_allow, cleartext_allowThis. Qed.

(** C7. Right after a successful [createTicket], the lock handle the
    creator reads is the one [FHE.asEbool(true)] returned, and it stands
    for [true]: the new ticket is locked, whatever the caller and the
    other inputs. *)
Theorem new_ticket_locked (s s' : State) (sender : address) (e v d : string)
    (enc : externalEuint32) (proof : bytes) (ticketId : uint256) :
  call (createTicket sender e v d enc proof) s = (Success ticketId, s') ->
  exists seat st,
    FHE_fromExternal enc proof sender (coprocessor s) = Some (seat, st)
    /\ getEncryptedLockStatus sender ticketId s' = Ok (FHE_asEbool true st).1 s'
    /\ cleartext (coprocessor s') (FHE_asEbool true st).1 = Some true.
Proof.
  unfold call. rewrite createTicket_run.
  destruct (_ <? _); [|done].
  destruct (FHE_fromExternal _ _ _ _) as [[seat st]|]; [|done].
  intros [= <- <-]. exists seat, st. split_and!; [done| |].
  - rewrite getEncryptedLockStatus_run, ticketAt_created, decide_True by done.
    simpl. by rewrite N.eqb_refl.
  - rewrite cleartext_created. apply cleartext_asEbool.
Qed.

Lemma with_isLocked_id t : with_isLocked (isLocked t) t = t.
Proof. by destruct t. Qed.

Lemma with_owner_id t : with_owner (owner t) t = t.
Proof. by destruct t. Qed.

Lemma differs_only_in_lock_refl ticketId s : differs_only_in_lock ticketId s s.
Proof. split_and!; try done. by rewrite with_isLocked_id. Qed.

Lemma differs_only_in_lock_state b sender ticketId s :
  differs_only_in_lock ticketId s (lock_state b sender ticketId s).
Proof.
  split_and!; try done.
  - intros j Hj. rewrite ticketAt_lock. by rewrite decide_False.
  - rewrite ticketAt_lock, decide_True by done. done.
Qed.

Lemma repeatable_lock_state (op : address -> uint256 -> M unit) b s sender ticketId :
  (forall s0, op sender ticketId s0 =
     if exists_ (ticketAt s0 ticketId)
     then if owner (ticketAt s0 ticketId) =? sender
          then Ok tt (lock_state b sender ticketId s0)
          else Revert NotTicketOwner
     else Revert TicketDoesNotExist) ->
  exists_ (ticketAt s ticketId) = true ->
  owner (ticketAt s ticketId) = sender ->
  repeatable_with_lock op b s sender ticketId.
Proof.
  intros Hop Hex Hown.
  set (s1 := lock_state b sender ticketId s).
  assert (Hex1 : exists_ (ticketAt s1 ticketId) = true).
  { unfold s1. by rewrite ticketAt_lock, decide_True. }
  assert (Hown1 : owner (ticketAt s1 ticketId) = sender).
  { unfold s1. by rewrite ticketAt_lock, decide_True. }
  set (s2 := lock_state b sender ticketId s1).
  assert (Hex2 : exists_ (ticketAt s2 ticketId) = true).
  { unfold s2. by rewrite ticketAt_lock, decide_True. }
  assert (Hown2 : owner (ticketAt s2 ticketId) = sender).
  { unfold s2. by rewrite ticketAt_lock, decide_True. }
  exists s1, s2, (isLocked (ticketAt s1 ticketId)), (isLocked (ticketAt s2 ticketId)).
  unfold call. rewrite !Hop, Hex, Hown, Hex1, Hown1, N.eqb_refl.
  rewrite !getEncryptedLockStatus_run, Hex1, Hown1, Hex2, Hown2, N.eqb_refl.
  split_and!; try done.
  - unfold s1. rewrite cleartext_lock, ticketAt_lock, decide_True by done.
    apply cleartext_asEbool.
  - unfold s2. rewrite cleartext_lock, ticketAt_lock, decide_True by done.
    apply cleartext_asEbool.
  - apply differs_only_in_lock_state.
Qed.

(** C8. For an existing ticket and its owner, [lockTicket] called twice in
    a row succeeds both times and the ticket reads as locked after each
    call; likewise [unlockTicket] and unlocked.  The second call changes
    no ticket field but the lock handle, nor the count, nor any owner's
    array. *)
Theorem lock_toggle_idempotent (s : State) (sender : address) (ticketId : uint256) :
  exists_ (ticketAt s ticketId) = true ->
  owner (ticketAt s ticketId) = sender ->
  repeatable_with_lock lockTicket true s sender ticketId
  /\ repeatable_with_lock unlockTicket false s sender ticketId.
Proof.
  intros Hex Hown. split.
  - apply repeatable_lock_state; [apply lockTicket_run|done..].
  - apply repeatable_lock_state; [apply unlockTicket_run|done..].
Qed.

(** ** Immutable fields *)

Lemma same_static_refl t : same_static t t.
Proof. by repeat split. Qed.

Lemma same_static_trans t1 t2 t3 :
  same_static t1 t2 -> same_static t2 t3 -> same_static t1 t3.
Proof. unfold same_static. intros (?&?&?&?) (?&?&?&?). split_and!; congruence. Qed.

Lemma transact_static sender c s i :
  Inv s -> exists_ (ticketAt s i) = true ->
  same_static (ticketAt s i) (ticketAt (transact sender c s).2 i)
  /\ exists_ (ticketAt (transact sender c s).2 i) = true.
Proof.
  intros HI Hex.
  destruct (transact_state sender c s)
    as [->|[(e & v & d & enc & proof & h & st & _ & _ & _ & ->)
       |[(b & ticketId & _ & _ & _ & ->)
        |(ticketId & newOwner & _ & _ & _ & _ & _ & ->)]]]; simpl.
  - split; [apply same_static_refl|done].
  - pose proof (Inv_exists_lt s i HI Hex).
    rewrite ticketAt_created, decide_False by lia.
    split; [apply same_static_refl|done].
  - rewrite ticketAt_lock. case_decide as Hid; [subst i|].
    + by repeat split.
    + split; [apply same_static_refl|done].
  - rewrite ticketAt_transferred. case_decide as Hid; [subst i|].
    + by repeat split.
    + split; [apply same_static_refl|done].
Qed.

Lemma run_static tr s i :
  Inv s -> exists_ (ticketAt s i) = true ->
  same_static (ticketAt s i) (ticketAt (run tr s).2 i).
Proof.
  revert s. induction tr as [|[sender c] tr IH]; intros s HI Hex; simpl.
  - apply same_static_refl.
  - destruct (transact_static sender c s i HI Hex) as [Hst Hex'].
    eapply same_static_trans; [exact Hst|].
    apply IH; [by apply transact_Inv|done].
Qed.

Lemma transact_lock_frame sender ticketId s c :
  c = LockTicket ticketId \/ c = UnlockTicket ticketId ->
  differs_only_in_lock ticketId s (transact sender c s).2.
Proof.
  intros Hc.
  destruct (transact_state sender c s)
    as [->|[(e & v & d & enc & proof & h & st & -> & _)
       |[(b & ticketId' & Hc' & _ & _ & ->)
        |(ticketId' & newOwner & -> & _)]]]; simpl.
  - apply differs_only_in_lock_refl.
  - by destruct Hc.
  - assert (ticketId' = ticketId) as -> by naive_solver.
    apply differs_only_in_lock_state.
  - by destruct Hc.
Qed.

Lemma transact_transfer_frame sender ticketId newOwner s :
  differs_only_in_owner ticketId sender newOwner s
    (transact sender (TransferTicket ticketId newOwner) s).2.
Proof.
  destruct (transact_state sender (TransferTicket ticketId newOwner) s)
    as [->|[(e & v & d & enc & proof & h & st & [=] & _)
       |[(b & ticketId' & [[[=] _]|[[=] _]] & _)
        |(ticketId' & newOwner' & [= <- <-] & Hex & Hown & _ & Hself & ->)]]]; simpl.
  - split_and!; try done. by rewrite with_owner_id.
  - split_and!; try done.
    + intros j Hj. by rewrite ticketAt_transferred, decide_False.
    + by rewrite ticketAt_transferred, decide_True.
    + intros P HA HB.
      rewrite ownerTicketsAt_transferred by congruence.
      rewrite decide_False by done. rewrite decide_False by congruence. done.
Qed.

Lemma transact_view sender c s : is_view c = true -> (transact sender c s).2 = s.
Proof.
  intros Hc.
  destruct (transact_state sender c s)
    as [->|[(e & v & d & enc & proof & h & st & -> & _)
       |[(b & ticketId & [[-> _]|[-> _]] & _)
        |(ticketId & newOwner & -> & _)]]]; done.
Qed.

(** C9. Once a ticket exists, its seat handle, event name, venue and date
    are the same after any further trace of transactions.  A [lockTicket]
    or [unlockTicket] transaction changes at most the lock handle of its
    ticket; a [transferTicket] transaction changes at most the owner field
    of its ticket and the arrays of the sender and the new owner; the five
    read functions change nothing. *)
Theorem static_fields_immutable (s : State) (i : uint256) (tr : list (address * Call))
    (sender : address) (ticketId : uint256) (newOwner : address) (c : Call) :
  reachable s ->
  exists_ (ticketAt s i) = true ->
  same_static (ticketAt s i) (ticketAt (run tr s).2 i)
  /\ differs_only_in_lock ticketId s (transact sender (LockTicket ticketId) s).2
  /\ differs_only_in_lock ticketId s (transact sender (UnlockTicket ticketId) s).2
  /\ differs_only_in_owner ticketId sender newOwner s
       (transact sender (TransferTicket ticketId newOwner) s).2
  /\ (is_view c = true -> (transact sender c s).2 = s).
Proof.
  intros HI%reachable_Inv Hex. split_and!.
  - by apply run_static.
  - apply transact_lock_frame. by left.
  - apply transact_lock_frame. by right.
  - apply transact_transfer_frame.
  - apply transact_view.
Qed.

End Verification.

(** * Further properties of the contract *)

Section Further.
Context `{fhe : FHELib}.
Local Set Warnings "-clear-no-such-hyp".

(** ** Transfer input checks *)

(** X1. The owner of an existing ticket cannot transfer it to
    [address(0)] ("Invalid new owner") nor to themselves ("Cannot transfer
    to self"); both are InvalidInput, the zero check comes first, and
    storage is left as it was. *)
Theorem transfer_rejects_zero_and_self (s : State) (sender : address)
    (ticketId : uint256) :
  exists_ (ticketAt s ticketId) = true ->
  owner (ticketAt s ticketId) = sender ->
  kind InvalidNewOwner = InvalidInput
  /\ kind CannotTransferToSelf = InvalidInput
  /\ call (transferTicket sender ticketId 0) s = (Failure InvalidNewOwner, s)
  /\ call (transferTicket sender ticketId sender) s
     = (Failure (if sender =? 0 then InvalidNewOwner else CannotTransferToSelf), s).
Proof.
  intros Hex Hown. unfold call.
  rewrite !transferTicket_run, Hex, Hown, N.eqb_refl. simpl.
  split_and!; try done. by destruct (sender =? 0).
Qed.

(** ** Creation *)

(** X2. When the counter is below its maximum and the input proof
    verifies, [createTicket] succeeds with the current count as id, and
    the new ticket reads back as written: [getTicketMetadata] gives the
    three strings, the sender as owner and [exists = true],
    [getEncryptedSeatNumber] gives the sender the handle [FHE.fromExternal]
    returned, the id is appended to the sender's array, and the count is
    one more. *)
Theorem createTicket_reads_back (s : State) (sender : address) (e v d : string)
    (enc : externalEuint32) (proof : bytes) (seat : euint32) (st : fhe_state) :
  _ticketCount s < MAX_UINT256 ->
  FHE_fromExternal enc proof sender (coprocessor s) = Some (seat, st) ->
  exists s',
    call (createTicket sender e v d enc proof) s = (Success (_ticketCount s), s')
    /\ getTicketMetadata (_ticketCount s) s' = Ok (e, v, d, sender, true) s'
    /\ getEncryptedSeatNumber sender (_ticketCount s) s' = Ok seat s'
    /\ getOwnerTickets sender s' = Ok (ownerTicketsAt s sender ++ [_ticketCount s]) s'
    /\ getTicketCount s' = Ok (_ticketCount s + 1) s'.
Proof.
  intros Hlt%N.ltb_lt Hfx.
  exists (created_state sender e v d seat st s).
  unfold call. rewrite createTicket_run, Hlt, Hfx.
  split_and!; try done.
  - rewrite getTicketMetadata_run, ticketAt_created, decide_True by done. done.
  - rewrite getEncryptedSeatNumber_run, ticketAt_created, decide_True by done.
    simpl. by rewrite N.eqb_refl.
  - unfold getOwnerTickets, gets.
    by rewrite ownerTicketsAt_created, decide_True.
Qed.

(** X3. [createTicket] succeeds exactly when the counter is below its
    maximum and the input proof verifies; the strings play no part. *)
Theorem createTicket_success_criterion (s : State) (sender : address)
    (e v d : string) (enc : externalEuint32) (proof : bytes) :
  (exists ticketId s',
     call (createTicket sender e v d enc proof) s = (Success ticketId, s'))
  <-> _ticketCount s < MAX_UINT256
      /\ is_Some (FHE_fromExternal enc proof sender (coprocessor s)).
Proof.
  unfold call. rewrite createTicket_run.
  destruct (_ticketCount s <? MAX_UINT256) eqn:Hlt.
  - apply N.ltb_lt in Hlt.
    destruct (FHE_fromExternal enc proof sender (coprocessor s)) as [[h st]|].
    + split; [by eauto|]. intros _. by eexists _, _.
    + split; [by intros (? & ? & ?)|]. by intros [_ [? ?]].
  - apply N.ltb_ge in Hlt.
    split; [by intros (? & ? & ?)|]. intros [? _]. lia.
Qed.

(** ** Existence and the count *)

(** X4. In every reachable state the [exists] flag [getTicketMetadata]
    reports for an id is [true] exactly when the id is below
    [getTicketCount]. *)
Theorem exists_iff_below_count (s : State) (i : uint256) :
  reachable s ->
  exists e v d o ex n,
    getTicketMetadata i s = Ok (e, v, d, o, ex) s
    /\ getTicketCount s = Ok n s
    /\ (ex = true <-> i < n).
Proof.
  intros HI%reachable_Inv.
  eexists _, _, _, _, _, _. split_and!; [reflexivity|reflexivity|].
  split; [by apply Inv_exists_lt|by apply Inv_lt_exists].
Qed.

(** X5. In every reachable state an owner's array has no repeated id,
    holds only ids below the count, and shares no id with the array of
    another address. *)
Theorem owner_arrays_distinct_and_bounded (s : State) (P : address) :
  reachable s ->
  NoDup (ownerTicketsAt s P)
  /\ (forall i, i ∈ ownerTicketsAt s P -> i < _ticketCount s)
  /\ (forall Q i, i ∈ ownerTicketsAt s P -> i ∈ ownerTicketsAt s Q -> P = Q).
Proof.
  intros HI%reachable_Inv. split_and!.
  - apply (inv_NoDup s HI).
  - intros i [Hex _]%(inv_index s HI). by apply Inv_exists_lt.
  - intros Q i [_ HP]%(inv_index s HI) [_ HQ]%(inv_index s HI). congruence.
Qed.

(** ** Nothing is ever deleted *)

Lemma run_count_le tr (s : State) : _ticketCount s <= _ticketCount (run tr s).2.
Proof. destruct (run_createdIds tr s) as (n & _ & ->). lia. Qed.

Lemma run_exists tr (s : State) i :
  Inv s -> exists_ (ticketAt s i) = true -> exists_ (ticketAt (run tr s).2 i) = true.
Proof.
  revert s. induction tr as [|[sender c] tr IH]; intros s HI Hex; simpl; [done|].
  apply IH; [by apply transact_Inv|].
  by apply transact_static.
Qed.

(** X6. Along any trace of transactions from a reachable state the ticket
    count never goes down and a ticket that exists goes on existing. *)
Theorem tickets_never_deleted (s : State) (tr : list (address * Call)) (i : uint256) :
  reachable s ->
  exists_ (ticketAt s i) = true ->
  _ticketCount s <= _ticketCount (run tr s).2
  /\ exists_ (ticketAt (run tr s).2 i) = true.
Proof.
  intros HI%reachable_Inv Hex. split; [apply run_count_le|by apply run_exists].
Qed.

(** ** Only the owner changes a ticket *)

(** X7. In a reachable state, no transaction sent by an address other
    than a ticket's owner changes any field of that ticket, whatever
    function it calls and with whatever arguments. *)
Theorem only_owner_changes_ticket (s : State) (sender : address) (c : Call)
    (i : uint256) :
  reachable s ->
  exists_ (ticketAt s i) = true ->
  owner (ticketAt s i) <> sender ->
  ticketAt (transact sender c s).2 i = ticketAt s i.
Proof.
  intros HI%reachable_Inv Hex Hown.
  destruct (transact_state sender c s)
    as [->|[(e & v & d & enc & proof & h & st & _ & _ & _ & ->)
       |[(b & ticketId & _ & _ & Hown' & ->)
        |(ticketId & newOwner & _ & _ & Hown' & _ & _ & ->)]]]; simpl.
  - done.
  - pose proof (Inv_exists_lt s i HI Hex).
    rewrite ticketAt_created. by rewrite decide_False by lia.
  - rewrite ticketAt_lock. case_decide as Hid; [|done]. by subst i.
  - rewrite ticketAt_transferred. case_decide as Hid; [|done]. by subst i.
Qed.

(** ** Access follows ownership *)

(** X8. After a successful [transferTicket ticketId B] by [A], [B] reads
    the very seat and lock handles the ticket had, the lock handle stands
    for the same plaintext as before, and [A] is refused by both handle
    getters and by [lockTicket] and [unlockTicket]. *)
Theorem transfer_hands_over_access (s s' : State) (A B : address) (ticketId : uint256) :
  call (transferTicket A ticketId B) s = (Success tt, s') ->
  getEncryptedSeatNumber B ticketId s'
    = Ok (encryptedSeatNumber (ticketAt s ticketId)) s'
  /\ getEncryptedLockStatus B ticketId s' = Ok (isLocked (ticketAt s ticketId)) s'
  /\ cleartext (coprocessor s') (isLocked (ticketAt s ticketId))
     = cleartext (coprocessor s) (isLocked (ticketAt s ticketId))
  /\ call (getEncryptedSeatNumber A ticketId) s' = (Failure NotTicketOwner, s')
  /\ call (getEncryptedLockStatus A ticketId) s' = (Failure NotTicketOwner, s')
  /\ call (lockTicket A ticketId) s' = (Failure NotTicketOwner, s')
  /\ call (unlockTicket A ticketId) s' = (Failure NotTicketOwner, s').
Proof.
  unfold call. rewrite transferTicket_run.
  destruct (exists_ (ticketAt s ticketId)) eqn:Hex; [|done].
  destruct (owner (ticketAt s ticketId) =? A); [|done].
  destruct (B =? 0); [done|].
  destruct (B =? A) eqn:Hself; [done|].
  intros [= <-].
  rewrite !getEncryptedSeatNumber_run, !getEncryptedLockStatus_run,
    lockTicket_run, unlockTicket_run, ticketAt_transferred.
  rewrite decide_True by done. simpl. rewrite Hex, Hself, N.eqb_refl.
  split_and!; try done.
  by rewrite !cleartext_allow.
Qed.

(** ** There and back *)

Lemma removeLoop_last (fuel i : nat) (ticketId : N) (l : list N) :
  ticketId ∉ l -> (i <= length l)%nat -> (length l < i + fuel)%nat ->
  removeLoop fuel i ticketId (l ++ [ticketId]) = l.
Proof.
  intros Hnotin. revert i. induction fuel as [|fuel IH]; intros i Hi Hfuel; [lia|].
  simpl. destruct (decide (i = length l)) as [->|Hne].
  - rewrite list_lookup_middle by done. rewrite N.eqb_refl.
    rewrite length_app. simpl.
    replace (length l + 1 - 1)%nat with (length l) by lia.
    rewrite list_lookup_middle by done. simpl.
    rewrite insert_app_r_alt by lia. rewrite Nat.sub_diag. simpl.
    apply take_app_length.
  - assert (Hlt : (i < length l)%nat) by lia.
    destruct (lookup_lt_is_Some_2 l i Hlt) as [x Hx].
    rewrite lookup_app_l by done. rewrite Hx.
    assert (x <> ticketId) as ->%N.eqb_neq.
    { intros ->. apply Hnotin. apply list_elem_of_lookup. eauto. }
    apply IH; lia.
Qed.

Lemma with_owner_back (t : Ticket) (B : address) :
  with_owner (owner t) (with_owner B t) = t.
Proof. by destruct t. Qed.

(** X9. From a reachable state, when [A] (not [address(0)]) has
    transferred a ticket to [B], [B] can transfer it back, and then the
    ticket table and the count are what they were before the first
    transfer, [B]'s array and those of all third parties are exactly what
    they were, and [A]'s array holds the same ids as before, possibly in
    another order. *)
Theorem transfer_round_trip (s s1 : State) (A B : address) (ticketId : uint256) :
  reachable s ->
  A <> 0 ->
  call (transferTicket A ticketId B) s = (Success tt, s1) ->
  exists s2,
    call (transferTicket B ticketId A) s1 = (Success tt, s2)
    /\ _tickets s2 = _tickets s
    /\ _ticketCount s2 = _ticketCount s
    /\ (forall P, P <> A -> ownerTicketsAt s2 P = ownerTicketsAt s P)
    /\ ownerTicketsAt s2 A ≡ₚ ownerTicketsAt s A.
Proof.
  intros HI%reachable_Inv HA. unfold call. rewrite transferTicket_run.
  destruct (exists_ (ticketAt s ticketId)) eqn:Hex; [|done].
  destruct (owner (ticketAt s ticketId) =? A) eqn:Hown; [|done].
  destruct (B =? 0); [done|].
  destruct (B =? A) eqn:Hself; [done|].
  intros [= <-]. apply N.eqb_eq in Hown. apply N.eqb_neq in Hself.
  assert (Hne : B <> owner (ticketAt s ticketId)) by congruence.
  set (s1 := transferred_state ticketId B s).
  assert (Ht1 : ticketAt s1 ticketId = with_owner B (ticketAt s ticketId)).
  { unfold s1. by rewrite ticketAt_transferred, decide_True. }
  assert (Hne1 : A <> owner (ticketAt s1 ticketId)) by (rewrite Ht1; simpl; congruence).
  exists (transferred_state ticketId A s1).
  rewrite transferTicket_run, Ht1. simpl. rewrite Hex, N.eqb_refl.
  assert ((A =? 0) = false) as -> by by apply N.eqb_neq.
  assert ((A =? B) = false) as -> by (apply N.eqb_neq; congruence).
  assert (HinA : ticketId ∈ ownerTicketsAt s A) by by apply (inv_index s HI).
  assert (HnotB : ticketId ∉ ownerTicketsAt s B).
  { intros [_ ?]%(inv_index s HI). congruence. }
  split_and!; try done.
  - simpl. rewrite Ht1. unfold s1. simpl.
    rewrite insert_insert_eq, <- Hown, with_owner_back.
    apply insert_id. by apply exists_stored.
  - intros P HP. rewrite ownerTicketsAt_transferred by done.
    rewrite decide_False by done. rewrite Ht1. simpl.
    unfold s1. rewrite !ownerTicketsAt_transferred by done.
    destruct (decide (B = P)) as [<-|HBP].
    + apply removeLoop_last; [done|lia|rewrite length_app; simpl; lia].
    + rewrite decide_False by congruence. done.
  - rewrite ownerTicketsAt_transferred by done.
    rewrite decide_True by done.
    unfold s1. rewrite ownerTicketsAt_transferred by done.
    rewrite decide_False by done. rewrite decide_True by done.
    etrans; [|symmetry; apply (removeLoop_present ticketId _ HinA)].
    symmetry. apply Permutation_cons_append.
Qed.

(** ** The removal loop, exactly *)

Lemma removeLoop_from (fuel i k : nat) (ticketId : N) (a : list N) :
  a !! k = Some ticketId ->
  (forall j, (j < k)%nat -> a !! j <> Some ticketId) ->
  (i <= k)%nat -> (k < i + fuel)%nat ->
  removeLoop fuel i ticketId a
  = take (length a - 1)%nat (<[k := default 0 (a !! (length a - 1)%nat)]> a).
Proof.
  intros Hk Hfirst. revert i. induction fuel as [|fuel IH]; intros i Hi Hfuel; [lia|].
  simpl. destruct (decide (i = k)) as [->|Hne].
  - by rewrite Hk, N.eqb_refl.
  - assert (Hlt : (i < length a)%nat) by (apply lookup_lt_Some in Hk; lia).
    destruct (lookup_lt_is_Some_2 a i Hlt) as [x Hx]. rewrite Hx.
    assert (x <> ticketId) as ->%N.eqb_neq.
    { intros ->. apply (Hfirst i); [lia|done]. }
    apply IH; lia.
Qed.

(** X10. When [k] is the first index at which the array holds the id,
    the removal loop of [transferTicket] returns an array one shorter in
    which slot [k] holds what was the last element and every other slot
    holds what it held: the order of the remaining ids is kept except for
    the one moved into the hole. *)
Theorem removeLoop_first_occurrence (a : list N) (k : nat) (ticketId : N) :
  a !! k = Some ticketId ->
  (forall j, (j < k)%nat -> a !! j <> Some ticketId) ->
  length (removeLoop (length a) 0 ticketId a) = (length a - 1)%nat
  /\ forall j, (j < length a - 1)%nat ->
       removeLoop (length a) 0 ticketId a !! j
       = if decide (j = k) then a !! (length a - 1)%nat else a !! j.
Proof.
  intros Hk Hfirst.
  pose proof (lookup_lt_Some _ _ _ Hk) as Hlen.
  rewrite (removeLoop_from (length a) 0 k ticketId a Hk Hfirst) by lia.
  destruct (lookup_lt_is_Some_2 a (length a - 1)%nat ltac:(lia)) as [z Hz].
  rewrite Hz. simpl. split.
  - rewrite length_take, length_insert. lia.
  - intros j Hj. rewrite lookup_take_lt by done.
    case_decide as Hjk.
    + subst j. by rewrite list_lookup_insert_eq.
    + by rewrite list_lookup_insert_ne.
Qed.

(** X11. On any array, with or without repetitions, the removal loop
    either finds no occurrence of the id and returns the array as it is,
    or drops exactly one occurrence: the result with the id put back is a
    rearrangement of the array, and is one shorter. *)
Theorem removeLoop_drops_one_or_nothing (a : list N) (ticketId : N) :
  (ticketId ∉ a) /\ removeLoop (length a) 0 ticketId a = a
  \/ ticketId ∈ a
     /\ a ≡ₚ ticketId :: removeLoop (length a) 0 ticketId a
     /\ length a = S (length (removeLoop (length a) 0 ticketId a)).
Proof.
  destruct (decide (ticketId ∈ a)) as [Hin|Hnotin].
  - right. pose proof (removeLoop_present ticketId a Hin) as Hperm.
    split_and!; [done..|].
    apply Permutation_length in Hperm. done.
  - left. split; [done|]. by apply removeLoop_absent.
Qed.

(** ** The event log *)

Lemma createdEventIds_app (l l' : list Event) :
  createdEventIds (l ++ l') = createdEventIds l ++ createdEventIds l'.
Proof.
  induction l as [|[ | | ] l IH]; simpl; [done|by rewrite IH|done..].
Qed.

(** X12. In every reachable state the [TicketCreated] events of the log
    carry, oldest first, the ids [0, 1, ..., count-1]: each ticket was
    announced once, in the order of the ids. *)
Theorem creation_events_in_order (s : State) :
  reachable s ->
  createdEventIds (events s) = map N.of_nat (seq 0 (N.to_nat (_ticketCount s))).
Proof.
  induction 1 as [st|s sender c _ IH]; [done|].
  destruct (transact_state sender c s)
    as [->|[(e & v & d & enc & proof & h & st & _ & _ & _ & ->)
       |[(b & ticketId & _ & _ & _ & ->)
        |(ticketId & newOwner & _ & _ & _ & _ & _ & ->)]]]; simpl.
  - done.
  - rewrite createdEventIds_app, IH. simpl.
    rewrite N.add_1_r, N2Nat.inj_succ, seq_S, map_app. simpl.
    by rewrite N2Nat.id.
  - rewrite createdEventIds_app, IH. simpl. by rewrite app_nil_r.
  - rewrite createdEventIds_app, IH. simpl. by rewrite app_nil_r.
Qed.

(** ** No ticket without an owner *)

Lemma transact_owners_nonzero sender c (s : State) :
  sender <> 0 -> Inv s -> owners_nonzero s -> owners_nonzero (transact sender c s).2.
Proof.
  intros Hsender HI Hnz.
  destruct (transact_state sender c s)
    as [->|[(e & v & d & enc & proof & h & st & _ & _ & _ & ->)
       |[(b & ticketId & _ & _ & _ & ->)
        |(ticketId & newOwner & _ & _ & _ & Hnew & _ & ->)]]]; simpl; [done|..];
    intros i.
  - rewrite ticketAt_created. case_decide; [done|apply Hnz].
  - rewrite ticketAt_lock. case_decide as Hid; [subst i|]; apply Hnz.
  - rewrite ticketAt_transferred. case_decide as Hid; [done|apply Hnz].
Qed.

Lemma run_owners_nonzero tr (s : State) :
  Forall (fun p => p.1 <> 0) tr -> Inv s -> owners_nonzero s ->
  owners_nonzero (run tr s).2.
Proof.
  revert s. induction tr as [|[sender c] tr IH]; intros s Htr HI Hnz; simpl; [done|].
  apply Forall_cons in Htr as [Hsender Htr]. simpl in Hsender.
  apply IH; [done|by apply transact_Inv|by apply transact_owners_nonzero].
Qed.

(** X13. When no transaction of a trace from the deployed contract is
    sent by [address(0)], every ticket that exists at its end has an owner
    other than [address(0)]: [createTicket] sets the sender as owner and
    [transferTicket] refuses the zero address. *)
Theorem owner_never_zero (tr : list (address * Call)) (st : fhe_state) (i : uint256) :
  Forall (fun p => p.1 <> 0) tr ->
  exists_ (ticketAt (run tr (deployed st)).2 i) = true ->
  owner (ticketAt (run tr (deployed st)).2 i) <> 0.
Proof.
  intros Htr. apply (run_owners_nonzero tr (deployed st) Htr (Inv_deployed st)).
  intros j. unfold ticketAt. simpl. by rewrite lookup_empty.
Qed.

(** ** The listing task *)

Lemma logTickets_run (ticketIds : list N) (s : State) :
  exists lines,
    logTickets ticketIds s = Ok lines s
    /\ loggedIds lines = ticketIds
    /\ loggedOwners lines = map (fun i => owner (ticketAt s i)) ticketIds.
Proof.
  induction ticketIds as [|ticketId rest (lines & Hrun & Hids & Howners)]; simpl.
  - by exists [].
  - unfold bind. rewrite getTicketMetadata_run, Hrun. unfold ret.
    eexists. split; [reflexivity|]. simpl. by rewrite Hids, Howners.
Qed.

(** X14. Run against a reachable state, [task:get-tickets] does not fail
    and changes nothing; it announces as many tickets as it then lists,
    lists each id once, lists exactly the tickets that exist with the
    signer as owner, and every owner line shows the signer. *)
Theorem task_get_tickets_lists_own_tickets (s : State) (vault signer : address) :
  reachable s ->
  exists lines rest,
    task_get_tickets vault signer s = Ok lines s
    /\ lines = LogTicketVault vault
               :: LogOwnerHas signer (length (loggedIds lines)) :: rest
    /\ NoDup (loggedIds lines)
    /\ (forall i, i ∈ loggedIds lines <->
                  exists_ (ticketAt s i) = true /\ owner (ticketAt s i) = signer)
    /\ Forall (fun a => a = signer) (loggedOwners lines).
Proof.
  intros HI%reachable_Inv.
  destruct (logTickets_run (ownerTicketsAt s signer) s) as (rest & Hrun & Hids & Howners).
  exists (LogTicketVault vault
          :: LogOwnerHas signer (length (ownerTicketsAt s signer)) :: rest), rest.
  unfold task_get_tickets, getOwnerTickets, gets, bind, ret. rewrite Hrun.
  simpl. rewrite Hids, Howners. split_and!; try done.
  - apply (inv_NoDup s HI).
  - intros i. apply (inv_index s HI).
  - apply Forall_map, Forall_forall. intros i Hi. simpl.
    by apply (inv_index s HI) in Hi as [_ ?].
Qed.

(** ** One event per write *)

Lemma transact_events sender c (s : State) :
  exists l,
    events (transact sender c s).2 = events s ++ l
    /\ length l = successfulWrites [(c, (transact sender c s).1)].
Proof.
  destruct (transact_state sender c s)
    as [Hs|[(e & v & d & enc & proof & h & st & -> & _ & _ & ->)
       |[(b & ticketId & [[-> _]|[-> _]] & _ & _ & ->)
        |(ticketId & newOwner & -> & _ & _ & _ & _ & ->)]]]; simpl;
    try (by eexists [_]).
  exists []. rewrite Hs, app_nil_r. split; [done|].
  destruct (transact sender c s) as [[v|err] s'] eqn:Hr; simpl in *; [|done].
  destruct (is_view c) eqn:Hview; [done|]. exfalso.
  subst s'. revert Hr. unfold transact, call, dispatch, bind.
  destruct c as [e v' d enc proof|ticketId|ticketId|ticketId newOwner| | | | | ];
    try done.
  - rewrite createTicket_run.
    destruct (_ <? _); [|done].
    destruct (FHE_fromExternal _ _ _ _) as [[h st]|]; [|done].
    unfold ret. intros [= _ Hs']. apply (f_equal _ticketCount) in Hs'.
    simpl in Hs'. lia.
  - rewrite unlockTicket_run.
    destruct (exists_ _); [|done]. destruct (_ =? _); [|done].
    unfold ret. intros [= _ Hs']. apply (f_equal events) in Hs'. simpl in Hs'.
    apply (f_equal length) in Hs'. rewrite length_app in Hs'. simpl in Hs'. lia.
  - rewrite lockTicket_run.
    destruct (exists_ _); [|done]. destruct (_ =? _); [|done].
    unfold ret. intros [= _ Hs']. apply (f_equal events) in Hs'. simpl in Hs'.
    apply (f_equal length) in Hs'. rewrite length_app in Hs'. simpl in Hs'. lia.
  - rewrite transferTicket_run.
    destruct (exists_ _); [|done]. destruct (_ =? sender); [|done].
    destruct (newOwner =? 0); [done|]. destruct (newOwner =? sender); [done|].
    unfold ret. intros [= _ Hs']. apply (f_equal events) in Hs'. simpl in Hs'.
    apply (f_equal length) in Hs'. rewrite length_app in Hs'. simpl in Hs'. lia.
Qed.

(** X15. The event log is append-only, and along any trace it grows by
    exactly one event for each transaction that succeeds and is not a read:
    reverted transactions and the five read functions log nothing. *)
Theorem one_event_per_write (tr : list (address * Call)) (s : State) :
  exists l,
    events (run tr s).2 = events s ++ l
    /\ length l = successfulWrites (run tr s).1.
Proof.
  revert s. induction tr as [|[sender c] tr IH]; intros s; simpl.
  - exists []. by rewrite app_nil_r.
  - destruct (transact_events sender c s) as (l1 & Hl1 & Hn1).
    destruct (IH (transact sender c s).2) as (l2 & Hl2 & Hn2).
    exists (l1 ++ l2). rewrite Hl2, Hl1, app_assoc. split; [done|].
    rewrite length_app, Hn1, Hn2. simpl.
    destruct (transact sender c s).1; [|done]. by destruct (is_view c).
Qed.

End Further.

(** ** The scenario, checked *)

Lemma reachable_s0 : reachable s0.
Proof. apply reachable_deployed. Defined.

Lemma reachable_s1 : reachable s1.
Proof. apply reachable_transact, reachable_s0. Defined.

Lemma reachable_s2 : reachable s2.
Proof. apply reachable_transact, reachable_s1. Defined.

(** C1. [createTicket] has no check on its strings: with an empty event
    name, an empty venue or an empty date and a proof that verifies, the
    call succeeds, returns id 0 on the deployed contract and raises the
    count to 1. *)
Theorem createTicket_accepts_empty_strings :
  let seat := 1 in
  let r1 := call (createTicket alice EmptyString "Test Venue"%string
                    "2025-01-01"%string seat [seat; alice]) s0 in
  let r2 := call (createTicket alice "Test Event"%string EmptyString
                    "2025-01-01"%string seat [seat; alice]) s0 in
  let r3 := call (createTicket alice "Test Event"%string "Test Venue"%string
                    EmptyString seat [seat; alice]) s0 in
  (r1.1 = Success 0 /\ _ticketCount r1.2 = 1
   /\ eventName (ticketAt r1.2 0) = EmptyString)
  /\ (r2.1 = Success 0 /\ _ticketCount r2.2 = 1
      /\ venue (ticketAt r2.2 0) = EmptyString)
  /\ (r3.1 = Success 0 /\ _ticketCount r3.2 = 1
      /\ date (ticketAt r3.2 0) = EmptyString).
Proof. vm_compute. repeat split. Qed.

(** Removal fills the hole with the last element: order is not kept. *)
Example removeLoop_swaps_last : removeLoop 3 0 5 [5; 6; 7] = [7; 6].
Proof. reflexivity. Qed.

Example three_tickets_in_a_row :
  createdIds (run [(alice, concert); (bob, GetTicketCount); (alice, concert);
                   (bob, LockTicket 0); (alice, TransferTicket 1 bob);
                   (alice, concert)] s0).1
  = [0; 1; 2].
Proof. reflexivity. Qed.

Lemma ownership_index_consistent_witness :
  reachable s2 /\
  exists l e v d o ex,
    getOwnerTickets bob s2 = Ok l s2
    /\ getTicketMetadata 0 s2 = Ok (e, v, d, o, ex) s2
    /\ (0 ∈ l <-> ex = true /\ o = bob).
Proof.
  split; [apply reachable_s2|].
  apply (ownership_index_consistent s2 bob 0), reachable_s2.
Defined.

Lemma non_owner_rejected_witness :
  exists_ (ticketAt s1 0) = true /\ owner (ticketAt s1 0) <> bob /\
  (kind NotTicketOwner = NotAuthorized
   /\ call (getEncryptedSeatNumber bob 0) s1 = (Failure NotTicketOwner, s1)
   /\ call (getEncryptedLockStatus bob 0) s1 = (Failure NotTicketOwner, s1)
   /\ call (lockTicket bob 0) s1 = (Failure NotTicketOwner, s1)
   /\ call (unlockTicket bob 0) s1 = (Failure NotTicketOwner, s1)
   /\ forall newOwner,
        call (transferTicket bob 0 newOwner) s1 = (Failure NotTicketOwner, s1)).
Proof.
  assert (Hex : exists_ (ticketAt s1 0) = true) by reflexivity.
  assert (Hown : owner (ticketAt s1 0) <> bob) by (vm_compute; discriminate).
  split_and!; [exact Hex|exact Hown|apply (non_owner_rejected s1 bob 0 Hex Hown)..].
Defined.

Lemma transfer_moves_membership_witness :
  reachable s1 /\
  call (transferTicket alice 0 bob) s1 = (Success tt, s2) /\
  exists lA lB e v d,
    getOwnerTickets alice s2 = Ok lA s2
    /\ getOwnerTickets bob s2 = Ok lB s2
    /\ (0 ∉ lA)
    /\ count_occ N.eq_dec lB 0 = 1%nat
    /\ getTicketMetadata 0 s2 = Ok (e, v, d, bob, true) s2
    /\ getTicketCount s2 = Ok (_ticketCount s1) s2.
Proof.
  assert (Hcall : call (transferTicket alice 0 bob) s1 = (Success tt, s2))
    by (vm_compute; reflexivity).
  split_and!; [apply reachable_s1|exact Hcall|].
  apply (transfer_moves_membership s1 s2 alice bob 0 reachable_s1 Hcall).
Defined.

(** C6. Id 999 was never created in [s1] (one ticket), yet
    [getTicketMetadata 999] returns the zero record instead of reverting
    with NotFound: not every function taking an id rejects a missing one. *)
Lemma getTicketMetadata_missing_not_rejected :
  reachable s1 /\ _ticketCount s1 <= 999
  /\ call (getTicketMetadata 999) s1
     = (Success (EmptyString, EmptyString, EmptyString, 0, false), s1)
  /\ ~ exists e, call (getTicketMetadata 999) s1 = (Failure e, s1)
                 /\ kind e = NotFound.
Proof.
  split_and!.
  - apply reachable_s1.
  - vm_compute. discriminate.
  - reflexivity.
  - intros (e & He & _). vm_compute in He. discriminate.
Qed.

Lemma missing_ticket_rejected_witness :
  reachable s1 /\ _ticketCount s1 <= 999 /\
  (kind TicketDoesNotExist = NotFound
   /\ call (getEncryptedSeatNumber alice 999) s1 = (Failure TicketDoesNotExist, s1)
   /\ call (getEncryptedLockStatus alice 999) s1 = (Failure TicketDoesNotExist, s1)
   /\ call (lockTicket alice 999) s1 = (Failure TicketDoesNotExist, s1)
   /\ call (unlockTicket alice 999) s1 = (Failure TicketDoesNotExist, s1)
   /\ (forall newOwner,
         call (transferTicket alice 999 newOwner) s1
         = (Failure TicketDoesNotExist, s1))
   /\ call (getTicketMetadata 999) s1
      = (Success (EmptyString, EmptyString, EmptyString, 0, false), s1)).
Proof.
  assert (Hge : _ticketCount s1 <= 999) by (vm_compute; discriminate).
  split_and!; [apply reachable_s1|exact Hge
              |apply (missing_ticket_rejected s1 alice 999 reachable_s1 Hge)..].
Defined.

Lemma new_ticket_locked_witness :
  call (createTicket alice "Concert"%string "Arena"%string "2025-03-15"%string
          42 [42; alice]) s0 = (Success 0, s1) /\
  exists seat st,
    FHE_fromExternal 42 [42; alice] alice (coprocessor s0) = Some (seat, st)
    /\ getEncryptedLockStatus alice 0 s1 = Ok (FHE_asEbool true st).1 s1
    /\ cleartext (coprocessor s1) (FHE_asEbool true st).1 = Some true.
Proof.
  assert (Hcall : call (createTicket alice "Concert"%string "Arena"%string
                          "2025-03-15"%string 42 [42; alice]) s0 = (Success 0, s1))
    by (vm_compute; reflexivity).
  split; [exact Hcall|].
  apply (new_ticket_locked s0 s1 alice _ _ _ 42 [42; alice] 0 Hcall).
Defined.

Lemma lock_toggle_idempotent_witness :
  exists_ (ticketAt s1 0) = true /\ owner (ticketAt s1 0) = alice /\
  repeatable_with_lock lockTicket true s1 alice 0
  /\ repeatable_with_lock unlockTicket false s1 alice 0.
Proof.
  assert (Hex : exists_ (ticketAt s1 0) = true) by reflexivity.
  assert (Hown : owner (ticketAt s1 0) = alice) by reflexivity.
  split_and!; [done..|apply (lock_toggle_idempotent s1 alice 0 Hex Hown)
                     |apply (lock_toggle_idempotent s1 alice 0 Hex Hown)].
Defined.

Lemma static_fields_immutable_witness :
  reachable s1 /\ exists_ (ticketAt s1 0) = true /\
  (same_static (ticketAt s1 0) (ticketAt (run busy_trace s1).2 0)
   /\ differs_only_in_lock 0 s1 (transact alice (LockTicket 0) s1).2
   /\ differs_only_in_lock 0 s1 (transact alice (UnlockTicket 0) s1).2
   /\ differs_only_in_owner 0 alice bob s1 (transact alice (TransferTicket 0 bob) s1).2
   /\ (is_view (GetEncryptedSeatNumber 0) = true ->
       (transact alice (GetEncryptedSeatNumber 0) s1).2 = s1)).
Proof.
  assert (Hex : exists_ (ticketAt s1 0) = true) by reflexivity.
  split_and!; [apply reachable_s1|exact Hex
              |apply (static_fields_immutable s1 0 busy_trace alice 0 bob
                        (GetEncryptedSeatNumber 0) reachable_s1 Hex)..].
Defined.

Lemma metadata_of_missing_ticket_witness :
  reachable s1 /\ _ticketCount s1 <= 999 /\
  call (getTicketMetadata 999) s1
  = (Success (EmptyString, EmptyString, EmptyString, 0, false), s1).
Proof.
  assert (Hge : _ticketCount s1 <= 999) by (vm_compute; discriminate).
  split_and!; [apply reachable_s1|exact Hge|].
  apply (metadata_of_missing_ticket s1 999 reachable_s1 Hge).
Defined.

(** ** The further properties, on the scenario *)

Lemma reachable_s3 : reachable s3.
Proof. apply run_reachable, reachable_s0. Defined.

(** Passing ticket 0 to Bob and back leaves Alice with the same tickets in
    another order. *)
Example round_trip_reorders :
  ownerTicketsAt s3 alice = [0; 1; 2] /\ ownerTicketsAt s5 alice = [2; 1; 0].
Proof. split; reflexivity. Qed.

Lemma transfer_rejects_zero_and_self_witness :
  exists_ (ticketAt s1 0) = true /\ owner (ticketAt s1 0) = alice /\
  (kind InvalidNewOwner = InvalidInput
   /\ kind CannotTransferToSelf = InvalidInput
   /\ call (transferTicket alice 0 0) s1 = (Failure InvalidNewOwner, s1)
   /\ call (transferTicket alice 0 alice) s1
      = (Failure (if alice =? 0 then InvalidNewOwner else CannotTransferToSelf), s1)).
Proof.
  assert (Hex : exists_ (ticketAt s1 0) = true) by reflexivity.
  assert (Hown : owner (ticketAt s1 0) = alice) by reflexivity.
  split_and!; [exact Hex|exact Hown
              |apply (transfer_rejects_zero_and_self s1 alice 0 Hex Hown)..].
Defined.

Lemma createTicket_reads_back_witness :
  _ticketCount s0 < MAX_UINT256 /\
  FHE_fromExternal 42 [42; alice] alice (coprocessor s0) = Some (42, mock_init) /\
  exists s',
    call (createTicket alice "Concert"%string "Arena"%string "2025-03-15"%string
            42 [42; alice]) s0 = (Success (_ticketCount s0), s')
    /\ getTicketMetadata (_ticketCount s0) s'
       = Ok ("Concert"%string, "Arena"%string, "2025-03-15"%string, alice, true) s'
    /\ getEncryptedSeatNumber alice (_ticketCount s0) s' = Ok 42 s'
    /\ getOwnerTickets alice s' = Ok (ownerTicketsAt s0 alice ++ [_ticketCount s0]) s'
    /\ getTicketCount s' = Ok (_ticketCount s0 + 1) s'.
Proof.
  assert (Hlt : _ticketCount s0 < MAX_UINT256) by (vm_compute; reflexivity).
  assert (Hfx : FHE_fromExternal 42 [42; alice] alice (coprocessor s0)
                = Some (42, mock_init)) by reflexivity.
  split_and!; [exact Hlt|exact Hfx|].
  apply (createTicket_reads_back s0 alice _ _ _ 42 [42; alice] 42 mock_init Hlt Hfx).
Defined.

Lemma exists_iff_below_count_witness :
  reachable s1 /\
  exists e v d o ex n,
    getTicketMetadata 0 s1 = Ok (e, v, d, o, ex) s1
    /\ getTicketCount s1 = Ok n s1
    /\ (ex = true <-> 0 < n).
Proof.
  split; [apply reachable_s1|].
  apply (exists_iff_below_count s1 0 reachable_s1).
Defined.

Lemma owner_arrays_distinct_and_bounded_witness :
  reachable s2 /\
  (NoDup (ownerTicketsAt s2 bob)
   /\ (forall i, i ∈ ownerTicketsAt s2 bob -> i < _ticketCount s2)
   /\ (forall Q i, i ∈ ownerTicketsAt s2 bob -> i ∈ ownerTicketsAt s2 Q -> bob = Q)).
Proof.
  split; [apply reachable_s2|].
  apply (owner_arrays_distinct_and_bounded s2 bob reachable_s2).
Defined.

Lemma tickets_never_deleted_witness :
  reachable s1 /\ exists_ (ticketAt s1 0) = true /\
  (_ticketCount s1 <= _ticketCount (run busy_trace s1).2
   /\ exists_ (ticketAt (run busy_trace s1).2 0) = true).
Proof.
  assert (Hex : exists_ (ticketAt s1 0) = true) by reflexivity.
  split_and!; [apply reachable_s1|exact Hex
              |apply (tickets_never_deleted s1 busy_trace 0 reachable_s1 Hex)..].
Defined.

Lemma only_owner_changes_ticket_witness :
  reachable s1 /\ exists_ (ticketAt s1 0) = true /\ owner (ticketAt s1 0) <> bob /\
  ticketAt (transact bob (TransferTicket 0 bob) s1).2 0 = ticketAt s1 0.
Proof.
  assert (Hex : exists_ (ticketAt s1 0) = true) by reflexivity.
  assert (Hown : owner (ticketAt s1 0) <> bob) by (vm_compute; discriminate).
  split_and!; [apply reachable_s1|exact Hex|exact Hown|].
  apply (only_owner_changes_ticket s1 bob (TransferTicket 0 bob) 0
           reachable_s1 Hex Hown).
Defined.

Lemma transfer_hands_over_access_witness :
  call (transferTicket alice 0 bob) s1 = (Success tt, s2) /\
  (getEncryptedSeatNumber bob 0 s2 = Ok (encryptedSeatNumber (ticketAt s1 0)) s2
   /\ getEncryptedLockStatus bob 0 s2 = Ok (isLocked (ticketAt s1 0)) s2
   /\ cleartext (coprocessor s2) (isLocked (ticketAt s1 0))
      = cleartext (coprocessor s1) (isLocked (ticketAt s1 0))
   /\ call (getEncryptedSeatNumber alice 0) s2 = (Failure NotTicketOwner, s2)
   /\ call (getEncryptedLockStatus alice 0) s2 = (Failure NotTicketOwner, s2)
   /\ call (lockTicket alice 0) s2 = (Failure NotTicketOwner, s2)
   /\ call (unlockTicket alice 0) s2 = (Failure NotTicketOwner, s2)).
Proof.
  assert (Hcall : call (transferTicket alice 0 bob) s1 = (Success tt, s2))
    by (vm_compute; reflexivity).
  split; [exact Hcall|].
  apply (transfer_hands_over_access s1 s2 alice bob 0 Hcall).
Defined.

Lemma transfer_round_trip_witness :
  reachable s3 /\ alice <> 0 /\
  call (transferTicket alice 0 bob) s3 = (Success tt, s4) /\
  exists s',
    call (transferTicket bob 0 alice) s4 = (Success tt, s')
    /\ _tickets s' = _tickets s3
    /\ _ticketCount s' = _ticketCount s3
    /\ (forall P, P <> alice -> ownerTicketsAt s' P = ownerTicketsAt s3 P)
    /\ ownerTicketsAt s' alice ≡ₚ ownerTicketsAt s3 alice.
Proof.
  assert (HA : alice <> 0) by (vm_compute; discriminate).
  assert (Hcall : call (transferTicket alice 0 bob) s3 = (Success tt, s4))
    by (vm_compute; reflexivity).
  split_and!; [apply reachable_s3|exact HA|exact Hcall|].
  apply (transfer_round_trip s3 s4 alice bob 0 reachable_s3 HA Hcall).
Defined.

Lemma removeLoop_first_occurrence_witness :
  [5; 6; 7; 5] !! 0%nat = Some 5 /\
  (forall j, (j < 0)%nat -> [5; 6; 7; 5] !! j <> Some 5) /\
  (length (removeLoop 4 0 5 [5; 6; 7; 5]) = 3%nat
   /\ forall j, (j < 3)%nat ->
        removeLoop 4 0 5 [5; 6; 7; 5] !! j
        = if decide (j = 0%nat) then Some 5 else [5; 6; 7; 5] !! j).
Proof.
  assert (Hk : [5; 6; 7; 5] !! 0%nat = Some 5) by reflexivity.
  assert (Hfirst : forall j, (j < 0)%nat -> [5; 6; 7; 5] !! j <> Some 5)
    by (intros j Hj; lia).
  split_and!; [exact Hk|exact Hfirst
              |apply (removeLoop_first_occurrence [5; 6; 7; 5] 0 5 Hk Hfirst)..].
Defined.

Lemma creation_events_in_order_witness :
  reachable s3 /\
  createdEventIds (events s3) = map N.of_nat (seq 0 (N.to_nat (_ticketCount s3))).
Proof.
  split; [apply reachable_s3|].
  apply (creation_events_in_order s3 reachable_s3).
Defined.

Lemma owner_never_zero_witness :
  Forall (fun p : address * Call => p.1 <> 0)
    [(alice, concert); (alice, TransferTicket 0 bob)] /\
  exists_ (ticketAt (run [(alice, concert); (alice, TransferTicket 0 bob)] s0).2 0)
    = true /\
  owner (ticketAt (run [(alice, concert); (alice, TransferTicket 0 bob)] s0).2 0) <> 0.
Proof.
  assert (Htr : Forall (fun p : address * Call => p.1 <> 0)
                  [(alice, concert); (alice, TransferTicket 0 bob)]).
  { repeat constructor; vm_compute; discriminate. }
  assert (Hex : exists_ (ticketAt (run [(alice, concert);
                                        (alice, TransferTicket 0 bob)] s0).2 0) = true)
    by reflexivity.
  split_and!; [exact Htr|exact Hex|].
  apply (@owner_never_zero MockFHE [(alice, concert); (alice, TransferTicket 0 bob)]
           mock_init 0 Htr Hex).
Defined.

Lemma task_get_tickets_lists_own_tickets_witness :
  reachable s2 /\
  exists lines rest,
    task_get_tickets mock_this bob s2 = Ok lines s2
    /\ lines = LogTicketVault mock_this
               :: LogOwnerHas bob (length (loggedIds lines)) :: rest
    /\ NoDup (loggedIds lines)
    /\ (forall i, i ∈ loggedIds lines <->
                  exists_ (ticketAt s2 i) = true /\ owner (ticketAt s2 i) = bob)
    /\ Forall (fun a => a = bob) (loggedOwners lines).
Proof.
  split; [apply reachable_s2|].
  apply (task_get_tickets_lists_own_tickets s2 mock_this bob reachable_s2).
Defined.

(** What the listing task prints for Bob once he holds ticket 0. *)
Example task_get_tickets_bob :
  task_get_tickets mock_this bob s2
  = Ok [LogTicketVault mock_this; LogOwnerHas bob 1; LogTicket 0;
        LogEvent "Concert"; LogVenue "Arena"; LogDate "2025-03-15"; LogOwner bob] s2.
Proof. reflexivity. Qed.
